(** * path_reconstructor: execution-path reconstruction from a call graph

    A shallow embedding of [path_reconstructor/log_sequences.py] and of
    [get_source] from [path_reconstructor/graph_processing.py].

    Nodes are Python strings.  A [networkx.DiGraph] is kept as its node
    list and its edge list, both in insertion order.  Python exceptions and
    [exit()] are results of type [outcome]; the random source and the
    library routine [networkx.shortest_simple_paths] are parameters of the
    reconstruction section. *)

From Stdlib Require Import Ascii String List Bool Arith Lia QArith.
Import ListNotations.
Open Scope string_scope.
Open Scope list_scope.
Open Scope nat_scope.

(** ** Nodes, paths and Python outcomes *)

Definition node := string.
Definition Path := list node.

(** The exceptions that the modelled functions can let escape.  [SystemExit]
    is what the builtin [exit()] raises; it carries the list of nodes printed
    just before: the candidate path in [cut_executed_nodes], the list of
    sources in [get_source]. *)
Inductive exn : Type :=
  | ZeroDivisionError
  | IndexError
  | SystemExit (printed : Path).

Inductive outcome (A : Type) : Type :=
  | Returns (a : A)
  | Raises (e : exn).
Arguments Returns {A} a.
Arguments Raises {A} e.

Definition bind {A B : Type} (m : outcome A) (k : A -> outcome B) : outcome B :=
  match m with
  | Returns a => k a
  | Raises e => Raises e
  end.

Notation "x <- m ;; k" := (bind m (fun x => k))
  (at level 61, m at next level, right associativity).

(** Python truthiness of a list: [if l:] holds when [l] has an element. *)
Definition truthy {A : Type} (l : list A) : bool :=
  match l with
  | [] => false
  | _ :: _ => true
  end.

(** [x in l] for a list of strings. *)
Definition mem (x : node) (l : list node) : bool := existsb (String.eqb x) l.

(** ** The directed graph *)

Definition edge := (node * node)%type.

Record DiGraph : Type := mkDiGraph {
  nodes : list node;
  edges : list edge
}.

Definition edge_eqb (e1 e2 : edge) : bool :=
  (fst e1 =? fst e2)%string && (snd e1 =? snd e2)%string.

Definition has_edge (g : DiGraph) (a b : node) : bool :=
  existsb (edge_eqb (a, b)) (edges g).

Definition add_node (g : DiGraph) (n : node) : DiGraph :=
  if mem n (nodes g) then g else mkDiGraph (nodes g ++ [n]) (edges g).

(** [g.add_edge(a, b)]: both ends become nodes, the edge is stored once. *)
Definition add_edge (g : DiGraph) (a b : node) : DiGraph :=
  let g' := add_node (add_node g a) b in
  if has_edge g' a b then g' else mkDiGraph (nodes g') (edges g' ++ [(a, b)]).

(** [nx.DiGraph(edge_list)]. *)
Definition DiGraph_of (l : list edge) : DiGraph :=
  fold_left (fun g e => add_edge g (fst e) (snd e)) l (mkDiGraph [] []).

(** [g.out_edges(n)] and [g.in_edges(n)] for [n] a node of the graph: the
    edges leaving, respectively entering, [n], each as a pair
    (origin, destination).  For a string that is not a node the library
    reads the string as a container of nodes and returns the edges of those
    of its characters that are nodes; this case is not modelled, and the
    statements that depend on these two functions are made for nodes of the
    graph. *)
Definition out_edges (g : DiGraph) (n : node) : list edge :=
  filter (fun e => (fst e =? n)%string) (edges g).

Definition in_edges (g : DiGraph) (n : node) : list edge :=
  filter (fun e => (snd e =? n)%string) (edges g).

Definition in_degree (g : DiGraph) (n : node) : nat := length (in_edges g n).

(** [g.to_undirected()]: same nodes, every edge usable both ways.  The
    undirected graph is kept as a directed one with both orientations of
    every edge, each stored once. *)
Definition to_undirected (g : DiGraph) : DiGraph :=
  fold_left (fun u e => add_edge (add_edge u (fst e) (snd e)) (snd e) (fst e))
    (edges g) (mkDiGraph (nodes g) []).

(** ** graph_processing.get_source *)

(** [[node for node in g if g.in_degree(node) == 0]] *)
Definition zero_in_degree_nodes (g : DiGraph) : list node :=
  filter (fun n => in_degree g n =? 0) (nodes g).

Definition get_source (g : DiGraph) : outcome node :=
  let sources := zero_in_degree_nodes g in
  if negb (length sources =? 1) then Raises (SystemExit sources)
  else match sources with
       | s :: _ => Returns s
       | [] => Raises IndexError
       end.

(** ** Python slices used by the source *)

(** [path[1:-1]] *)
Definition interior (p : Path) : Path := removelast (tl p).

(** [l[0:10]] guarded by [len(l) > 10] *)
Definition cap10 {A : Type} (l : list A) : list A :=
  if 10 <? length l then firstn 10 l else l.

(** ** Trace evaluation *)

Definition gap : node := " ".

(** The loop of [match_reconstruction].  [r_index] never passes the length
    of [reconstructed], so [reconstructed[r_index]] is always in range when
    it is read. *)
Fixpoint match_from (real reconstructed : list node) (r_index : nat) : list node :=
  match real with
  | [] => []
  | n :: real' =>
      if r_index =? length reconstructed then gap :: match_from real' reconstructed r_index
      else match nth_error reconstructed r_index with
           | Some x =>
               if (n =? x)%string then n :: match_from real' reconstructed (S r_index)
               else gap :: match_from real' reconstructed r_index
           | None => gap :: match_from real' reconstructed r_index
           end
  end.

Definition match_reconstruction (real reconstructed : list node) : list node :=
  match_from real reconstructed 0.

(** The loop of [get_true_positive]: [todo] is what [enumerate(real)] still
    has to deliver, [index] its position; [matched[index]] raises
    [IndexError] past the end of [matched]. *)
Fixpoint true_positive_from (todo matched : list node) (index count : nat) : outcome nat :=
  match todo with
  | [] => Returns count
  | r :: todo' =>
      match nth_error matched index with
      | None => Raises IndexError
      | Some m =>
          true_positive_from todo' matched (S index)
            (if (r =? m)%string then S count else count)
      end
  end.

Definition get_true_positive (real matched : list node) : outcome nat :=
  true_positive_from real matched 0 0.

(** Python's [/] on two ints; the quotient is kept exact. *)
Definition py_div (a b : nat) : outcome Q :=
  match b with
  | 0 => Raises ZeroDivisionError
  | S _ => Returns (Z.of_nat a # Pos.of_nat b)
  end.

Definition evaluate_precision (real reconstructed : list node) : outcome Q :=
  let matched := match_reconstruction real reconstructed in
  tp <- get_true_positive real matched ;;
  py_div tp (length reconstructed).

Definition evaluate_recall (real matched : list node) : outcome Q :=
  tp <- get_true_positive real matched ;;
  py_div tp (length matched).

(** ** log_sequences.is_path_direct *)

(** First loop: [todo] is what [enumerate(path[:-1])] still delivers.  The
    list [sources] collects component 1 of every edge entering [node]. *)
Fixpoint dir_change_scan (g : DiGraph) (path : Path) (todo : list node)
    (index dir_change_index : nat) : nat :=
  match todo with
  | [] => dir_change_index
  | node :: todo' =>
      let sources := map snd (in_edges g node) in
      let next_node := nth (index + 1) path "" in
      dir_change_scan g path todo' (S index)
        (if negb (mem next_node sources) then index else dir_change_index)
  end.

(** Second loop: [todo] is what [enumerate(path[dir_change_index:-1])] still
    delivers; [index] counts from 0 within that slice and [next_node] is
    read at [path[index+1]]. *)
Fixpoint forward_scan (g : DiGraph) (path : Path) (todo : list node)
    (index : nat) : bool :=
  match todo with
  | [] => true
  | node :: todo' =>
      let destinations := map snd (out_edges g node) in
      let next_node := nth (index + 1) path "" in
      if negb (mem next_node destinations) then false
      else forward_scan g path todo' (S index)
  end.

Definition is_path_direct (g : DiGraph) (path : Path) : Path :=
  let dir_change_index := dir_change_scan g path (removelast path) 0 0 in
  if forward_scan g path (removelast (skipn dir_change_index path)) 0
  then skipn dir_change_index path
  else [].

(** ** log_sequences.find_last_dif *)

Fixpoint first_dif (l : list node) (new_node : node) : node :=
  match l with
  | [] => new_node
  | i :: l' => if negb (i =? new_node)%string then i else first_dif l' new_node
  end.

Definition find_last_dif (nodes : list node) (new_node : node) : node :=
  first_dif (rev nodes) new_node.

(** ** The reconstruction engine

    [shortest_simple_paths G source target] stands for the library call
    [nx.shortest_simple_paths(G, source, target, weight=None)] consumed by
    [list(islice(..., k))]: [None] when the generator raises, [Some l] when it
    delivers the paths [l] in order.  [randbelow r n] is the draw that
    [random.choice] makes on a sequence of length [n], with the next state
    of the random source. *)
Section Reconstruction.

Variable shortest_simple_paths : DiGraph -> node -> node -> option (list Path).
Variable Rng : Type.
Variable randbelow : Rng -> nat -> nat * Rng.

Definition k_shortest_paths (G : DiGraph) (source target : node) (k : nat)
    : list Path :=
  match shortest_simple_paths G source target with
  | Some paths => firstn k paths
  | None => [[]]
  end.

(** The default [k=7] of the source. *)
Definition K : nat := 7.

(** [random.choice(seq)] on a non-empty sequence. *)
Definition random_choice {A : Type} (r : Rng) (seq : list A) (default : A)
    : A * Rng :=
  let (i, r') := randbelow r (length seq) in
  (nth (i mod length seq) seq default, r').

(** The loop of [cut_executed_nodes] over [enumerate(path)]. *)
Fixpoint cut_scan (g : DiGraph) (path : Path) (todo : list node) (index : nat)
    : outcome (list node) :=
  match todo with
  | [] => Raises (SystemExit path)
  | node :: todo' =>
      let shortened_paths := cap10 (k_shortest_paths g node (last path "") K) in
      if truthy shortened_paths then Returns (skipn index path)
      else cut_scan g path todo' (S index)
  end.

Definition cut_executed_nodes (g : DiGraph) (path : Path) : outcome (list node) :=
  cut_scan g path path 0.

(** [for p in paths: ... paths.append(short_path)]: the list iterator
    re-reads the length of [paths] at every step, so appended paths are
    visited too.  [None] when [fuel] steps do not reach the end. *)
Fixpoint append_direct_suffixes (fuel : nat) (g : DiGraph) (paths : list Path)
    (i : nat) : option (list Path) :=
  match nth_error paths i with
  | None => Some paths
  | Some p =>
      match fuel with
      | 0 => None
      | S fuel' =>
          let short_path := is_path_direct g p in
          append_direct_suffixes fuel' g
            (if truthy short_path then paths ++ [short_path] else paths) (S i)
      end
  end.

(** [set(path[1:-1]) & logged_nodes] is non-empty. *)
Definition crosses_logged (p : Path) (logged_nodes : list node) : bool :=
  existsb (fun n => mem n logged_nodes) (interior p).

Definition clean_paths (paths : list Path) (logged_nodes : list node) : list Path :=
  filter (fun p => negb (crosses_logged p logged_nodes)) paths.

(** Case 0 of [find_execution_path]: some edge leaving [node1] ends in
    [node2]. *)
Definition calls_itself (g : DiGraph) (node1 node2 : node) : bool :=
  existsb (fun e => (snd e =? node2)%string) (out_edges g node1).

(** The part of [find_execution_path] after Case 0. *)
Definition search_and_select (fuel : nat) (g u : DiGraph) (node1 node2 : node)
    (logged_nodes : list node) (r : Rng) : option (outcome (Path * Rng)) :=
  let paths := cap10 (k_shortest_paths g node1 node2 K) in
  let searched :=
    if negb (truthy paths)
    then match append_direct_suffixes fuel g (k_shortest_paths u node1 node2 K) 0 with
         | Some paths' => Some (false, paths')
         | None => None
         end
    else Some (true, paths) in
  match searched with
  | None => None
  | Some (is_direct, paths) =>
      let cleaned_paths := clean_paths paths logged_nodes in
      if negb (truthy cleaned_paths) then Some (Returns ([], r))
      else
        let (chosen, r') := random_choice r cleaned_paths [] in
        if is_direct then Some (Returns (chosen, r'))
        else Some (p <- cut_executed_nodes g chosen ;; Returns (p, r'))
  end.

Definition find_execution_path (fuel : nat) (g u : DiGraph)
    (node1 node2 last_dif_node : node) (logged_nodes : list node) (r : Rng)
    : option (outcome (Path * Rng)) :=
  if (node1 =? node2)%string then
    if calls_itself g node1 node2 then Some (Returns ([node1; node2], r))
    else search_and_select fuel g u last_dif_node node2 logged_nodes r
  else search_and_select fuel g u node1 node2 logged_nodes r.

(** The loop of [reconstruct_path]; [reconstruction[-1]] raises [IndexError]
    on an empty list. *)
Fixpoint reconstruct_loop (fuel : nat) (g u : DiGraph) (logged_nodes : list node)
    (logs : list node) (reconstruction : list node) (r : Rng)
    : option (outcome (list node * Rng)) :=
  match logs with
  | [] => Some (Returns (reconstruction, r))
  | node :: logs' =>
      let last_dif_node := find_last_dif reconstruction node in
      match reconstruction with
      | [] => Some (Raises IndexError)
      | _ :: _ =>
          match find_execution_path fuel g u (last reconstruction "") node
                  last_dif_node logged_nodes r with
          | None => None
          | Some (Raises e) => Some (Raises e)
          | Some (Returns (found, r')) =>
              let new_path := tl found in
              reconstruct_loop fuel g u logged_nodes logs'
                (reconstruction ++ (if truthy new_path then new_path else [node])) r'
          end
      end
  end.

Definition reconstruct_path (fuel : nat) (g : DiGraph) (logs : list node)
    (source : node) (r : Rng) : option (outcome (list node * Rng)) :=
  let u := to_undirected g in
  let logged_nodes := logs in
  match reconstruct_loop fuel g u logged_nodes logs [source] r with
  | None => None
  | Some (Raises e) => Some (Raises e)
  | Some (Returns (reconstruction, r')) => Some (Returns (tl reconstruction, r'))
  end.

End Reconstruction.

(** ** A reference model of the library search

    [nx.shortest_simple_paths] raises [NodeNotFound] when an end point is
    not a node of the graph and [NetworkXNoPath] when no path joins them;
    otherwise it delivers the simple paths from source to target, shortest
    first.  [simple_paths_from] lists them depth first, [sort_by_length]
    orders them. *)

Fixpoint simple_paths_from (fuel : nat) (G : DiGraph) (visited : list node)
    (source target : node) : list Path :=
  match fuel with
  | 0 => []
  | S fuel' =>
      if (source =? target)%string then [[source]]
      else
        flat_map
          (fun e =>
             if mem (snd e) (source :: visited) then []
             else map (cons source)
                    (simple_paths_from fuel' G (source :: visited) (snd e) target))
          (out_edges G source)
  end.

Fixpoint insert_by_length (p : Path) (l : list Path) : list Path :=
  match l with
  | [] => [p]
  | q :: l' => if length p <? length q then p :: q :: l'
               else q :: insert_by_length p l'
  end.

Definition sort_by_length (l : list Path) : list Path :=
  fold_right insert_by_length [] (rev l).

Definition nx_shortest_simple_paths (G : DiGraph) (source target : node)
    : option (list Path) :=
  if negb (mem source (nodes G)) || negb (mem target (nodes G)) then None
  else match sort_by_length
               (simple_paths_from (length (nodes G)) G [] source target) with
       | [] => None
       | p :: ps => Some (p :: ps)
       end.

(** A seedable random source: the list of the raw draws still to come. *)
Definition draws := list nat.

Definition next_draw (r : draws) (n : nat) : nat * draws :=
  match r with
  | [] => (0, [])
  | d :: r' => (d, r')
  end.

(** The call graph and logs of [demo/log_sequences_demo.py]. *)
Definition demo_graph : DiGraph :=
  DiGraph_of [("A","B"); ("B","G"); ("G","E"); ("E","E"); ("A","C");
              ("C","E"); ("A","D"); ("D","F"); ("F","D")].

Definition demo_logs : list node :=
  ["E";"B";"E";"E";"E";"E";"E";"B";"B";"E";"E";"B";"E"].

(** The chain A -> B -> C of the docstring of [is_path_direct]. *)
Definition chain_graph : DiGraph := DiGraph_of [("A","B"); ("B","C")].

(** A caller A with two callees B and C. *)
Definition fork_graph : DiGraph := DiGraph_of [("A","B"); ("A","C")].

(** ** graph_processing.group_collapsed_nodes *)

(** [c in node] for a one-character string [c]. *)
Fixpoint contains_char (c : ascii) (s : string) : bool :=
  match s with
  | EmptyString => false
  | String d s' => (d =? c)%char || contains_char c s'
  end.

(** [node[0]] and [node[-1]]; [None] stands for the [IndexError] of the
    empty string, which the condition below never reaches because an empty
    name contains neither separator. *)
Definition first_char (s : string) : option ascii :=
  match s with
  | EmptyString => None
  | String c _ => Some c
  end.

Fixpoint last_char (s : string) : option ascii :=
  match s with
  | EmptyString => None
  | String c EmptyString => Some c
  | String _ s' => last_char s'
  end.

Definition char_differs (c : option ascii) (d : ascii) : bool :=
  match c with
  | Some c' => negb (c' =? d)%char
  | None => true
  end.

(** The condition of the loop: the name contains [","] or ["|"], does not
    begin with ["("] and does not end with [")"]. *)
Definition newly_collapsed (node : string) : bool :=
  (contains_char "," node || contains_char "|" node)
  && char_differs (first_char node) "("
  && char_differs (last_char node) ")".

(** [nx.relabel_nodes(g, {old: new})], which builds a new graph: the nodes
    of [g] in order, then its edges, each name mapped. *)
Definition relabel_nodes (g : DiGraph) (old new : node) : DiGraph :=
  let f := fun n => if (n =? old)%string then new else n in
  fold_left (fun h e => add_edge h (f (fst e)) (f (snd e))) (edges g)
    (fold_left (fun h n => add_node h (f n)) (nodes g) (mkDiGraph [] [])).

(** One step of the loop; the loop runs over the nodes of the graph it was
    given while [g] is rebound to the relabelled copies. *)
Definition group_step (g : DiGraph) (node : node) : DiGraph :=
  if newly_collapsed node then relabel_nodes g node ("(" ++ node ++ ")")%string
  else g.

Definition group_collapsed_nodes (g : DiGraph) : DiGraph :=
  fold_left group_step (nodes g) g.

(** ** graph_processing.make_directed_graph

    The function is modelled from the list returned by [readlines()] on, for
    the default separator ["->"], which [re.split] takes literally.
    [rstrip] and [strip] stand for the methods [str.rstrip()] and
    [str.strip()]. *)

(** [re.split("->", s)]: [current] is the piece being read. *)
Fixpoint split_arrow (current s : string) : list string :=
  match s with
  | EmptyString => [current]
  | String c s' =>
      match s' with
      | EmptyString => [current ++ String c EmptyString]%string
      | String d s'' =>
          if (c =? "-")%char && (d =? ">")%char
          then current :: split_arrow EmptyString s''
          else split_arrow (current ++ String c EmptyString)%string s'
      end
  end.

Section EdgeFile.

Variable rstrip : string -> string.
Variable strip : string -> string.

(** The names that one line gives, [stripped_edges] in the source. *)
Definition stripped_edges (edge : string) : list string :=
  map strip (split_arrow EmptyString edge).

(** The body of the loop: [stripped_edges[1]] raises [IndexError] when the
    line gave a single piece. *)
Definition add_edge_of_line (g : DiGraph) (edge : string) : outcome DiGraph :=
  match stripped_edges edge with
  | a :: b :: _ => Returns (add_edge g a b)
  | _ => Raises IndexError
  end.

Fixpoint add_edges_of_lines (g : DiGraph) (edges : list string) : outcome DiGraph :=
  match edges with
  | [] => Returns g
  | edge :: edges' =>
      g' <- add_edge_of_line g edge ;; add_edges_of_lines g' edges'
  end.

Definition make_directed_graph (lines : list string) : outcome DiGraph :=
  add_edges_of_lines (mkDiGraph [] []) (map rstrip lines).

End EdgeFile.

(** A reference model of [str.rstrip()] and [str.strip()] on ASCII text:
    the white space characters are the codes 9 to 13 and 28 to 32. *)
Definition is_space (c : ascii) : bool :=
  let n := nat_of_ascii c in
  ((9 <=? n) && (n <=? 13)) || ((28 <=? n) && (n <=? 32)).

Fixpoint ascii_lstrip (s : string) : string :=
  match s with
  | EmptyString => EmptyString
  | String c s' => if is_space c then ascii_lstrip s' else s
  end.

Fixpoint ascii_rstrip (s : string) : string :=
  match s with
  | EmptyString => EmptyString
  | String c s' =>
      match ascii_rstrip s' with
      | EmptyString => if is_space c then EmptyString else String c EmptyString
      | t => String c t
      end
  end.

Definition ascii_strip (s : string) : string := ascii_lstrip (ascii_rstrip s).

(** The edge file of the demonstration, as [readlines()] returns it. *)
Definition demo_lines : list string :=
  [("A -> B" ++ String (ascii_of_nat 10) EmptyString)%string;
   ("B->G" ++ String (ascii_of_nat 10) EmptyString)%string;
   " G ->  E "].

(** ** Notions used to state the properties *)

(** Number of positions at which two lists carry the same node. *)
Fixpoint agree (l1 l2 : list node) : nat :=
  match l1, l2 with
  | a :: l1', b :: l2' => (if (a =? b)%string then 1 else 0) + agree l1' l2'
  | _, _ => 0
  end.

(** [Subseq l m]: [l] is [m] with some elements left out, order kept. *)
Inductive Subseq : list node -> list node -> Prop :=
  | Subseq_nil : Subseq [] []
  | Subseq_skip (x : node) (l m : list node) : Subseq l m -> Subseq l (x :: m)
  | Subseq_take (x : node) (l m : list node) : Subseq l m -> Subseq (x :: l) (x :: m).

(** A candidate for the target [t]: the empty path that stands for a failed
    search, or a path whose last node is [t]. *)
Definition candidate_for (t : node) (p : Path) : Prop :=
  p = [] \/ exists q, p = q ++ [t].

(** No node of the path is directly followed by itself, as in every simple
    path. *)
Fixpoint stutter_free (p : Path) : Prop :=
  match p with
  | a :: (b :: _) as p' => a <> b /\ stutter_free p'
  | _ => True
  end.

(** A name occurs in the graph: it is a node or an end of an edge. *)
Definition mentions (g : DiGraph) (x : node) : Prop :=
  In x (nodes g) \/ exists y, In (x, y) (edges g) \/ In (y, x) (edges g).

(** [s] contains the separator ["->"]. *)
Definition has_arrow (s : string) : Prop :=
  exists pre post, s = (pre ++ "->" ++ post)%string.

(** * Properties *)

(** ** Trace evaluation *)

Lemma match_from_length (real reconstructed : list node) (r_index : nat) :
  length (match_from real reconstructed r_index) = length real.
Proof.
  revert r_index.
  induction real as [|n real IH]; intros r_index; simpl; [reflexivity|].
  destruct (r_index =? length reconstructed); simpl; [now rewrite IH|].
  destruct (nth_error reconstructed r_index) as [x|]; simpl; [|now rewrite IH].
  destruct (n =? x)%string; simpl; now rewrite IH.
Qed.

Lemma skipn_cons_inv {A : Type} (l : list A) (i : nat) (x : A) (rest : list A) :
  skipn i l = x :: rest -> nth_error l i = Some x /\ skipn (S i) l = rest.
Proof.
  revert l.
  induction i as [|i IH]; intros [|y l] H; simpl in *; try discriminate.
  - inversion H; subst; split; [reflexivity | now destruct rest].
  - apply IH in H. exact H.
Qed.

Lemma true_positive_from_agree (todo matched ms : list node) (index count : nat) :
  skipn index matched = ms ->
  length todo <= length ms ->
  true_positive_from todo matched index count = Returns (count + agree todo ms).
Proof.
  revert ms index count.
  induction todo as [|r todo IH]; intros ms index count Hs Hl; simpl.
  - now rewrite Nat.add_0_r.
  - destruct ms as [|m ms]; simpl in Hl; [lia|].
    apply skipn_cons_inv in Hs. destruct Hs as [Hn Hs].
    rewrite Hn. rewrite (IH ms (S index)); [|assumption|lia].
    simpl. destruct (r =? m)%string; f_equal; lia.
Qed.

Lemma true_positive_from_returns (todo matched : list node) (index count c : nat) :
  true_positive_from todo matched index count = Returns c ->
  count <= c <= count + length todo /\
  (todo <> [] -> index + length todo <= length matched).
Proof.
  revert index count.
  induction todo as [|r todo IH]; intros index count H; simpl in *.
  - inversion H; subst. split; [lia | congruence].
  - destruct (nth_error matched index) as [m|] eqn:Hn; [|discriminate].
    apply IH in H. destruct H as [Hc Hlen].
    assert (Hi : index < length matched)
      by (apply nth_error_Some; congruence).
    split.
    + destruct (r =? m)%string; lia.
    + intros _. destruct todo as [|r' todo']; simpl in *; [lia|].
      assert (r' :: todo' <> []) by discriminate.
      specialize (Hlen H). lia.
Qed.

Lemma agree_le_length (l1 l2 : list node) : agree l1 l2 <= length l1.
Proof.
  revert l2. induction l1 as [|a l1 IH]; intros [|b l2]; simpl; try lia.
  specialize (IH l2). destruct (a =? b)%string; lia.
Qed.

(** Without the gap marker in the reference, every agreement of the
    alignment consumed one reconstructed node. *)
Lemma agree_match_from_bound (real reconstructed : list node) (r_index : nat) :
  ~ In gap real ->
  r_index <= length reconstructed ->
  agree real (match_from real reconstructed r_index)
    <= length reconstructed - r_index.
Proof.
  revert r_index.
  induction real as [|n real IH]; intros r_index Hgap Hle; simpl; [lia|].
  assert (Hn : (n =? gap)%string = false).
  { apply String.eqb_neq. intros ->. apply Hgap. now left. }
  assert (Hgap' : ~ In gap real) by (intros Hin; apply Hgap; now right).
  destruct (r_index =? length reconstructed) eqn:He.
  - simpl. rewrite Hn. simpl. now apply IH.
  - apply Nat.eqb_neq in He.
    destruct (nth_error reconstructed r_index) as [x|] eqn:Hx.
    + destruct (n =? x)%string eqn:Hnx; simpl.
      * rewrite String.eqb_refl.
        assert (S r_index <= length reconstructed) by lia.
        specialize (IH (S r_index) Hgap' H). lia.
      * rewrite Hn. simpl. specialize (IH r_index Hgap' Hle). lia.
    + simpl. rewrite Hn. simpl. specialize (IH r_index Hgap' Hle). lia.
Qed.

Lemma get_true_positive_matched (real reconstructed : list node) :
  get_true_positive real (match_reconstruction real reconstructed)
  = Returns (agree real (match_reconstruction real reconstructed)).
Proof.
  unfold get_true_positive.
  rewrite (true_positive_from_agree real _ (match_reconstruction real reconstructed) 0 0).
  - reflexivity.
  - reflexivity.
  - unfold match_reconstruction. rewrite match_from_length. lia.
Qed.

Lemma ratio_in_unit_interval (a b : nat) :
  a <= S b -> (0 <= Z.of_nat a # Pos.of_nat (S b) <= 1)%Q.
Proof.
  intros H. unfold Qle. cbn [Qnum Qden].
  rewrite <- Pos.of_nat_succ, Znat.Zpos_P_of_succ_nat. lia.
Qed.

(** C5, as the code behaves: with an empty denominator sequence neither
    function returns a number.  [evaluate_precision] lets the
    [ZeroDivisionError] of the division escape; [evaluate_recall] lets the
    [IndexError] of [get_true_positive] escape when the reference has an
    element, and the [ZeroDivisionError] when it has none. *)
Theorem evaluation_with_empty_denominator_raises (real : list node) :
  evaluate_precision real [] = Raises ZeroDivisionError /\
  evaluate_recall real []
  = Raises (match real with [] => ZeroDivisionError | _ :: _ => IndexError end).
Proof.
  split.
  - unfold evaluate_precision. rewrite get_true_positive_matched. reflexivity.
  - destruct real; reflexivity.
Qed.

(** C5, counterexample: precision of an empty reconstruction against the
    reference [A] is an escaping exception, not a returned value. *)
Lemma precision_of_empty_reconstruction_escapes :
  evaluate_precision ["A"] [] = Raises ZeroDivisionError /\
  ~ (exists v : Q, evaluate_precision ["A"] [] = Returns v).
Proof.
  split; [reflexivity|]. intros [v H]. discriminate H.
Qed.

(** C7, as the code behaves: when the reference does not contain the gap
    marker [" "], the precision of a non-empty reconstruction is returned
    and lies in [0, 1]; for every reference, any recall that is returned
    lies in [0, 1], and one is returned whenever [matched] is non-empty and
    at least as long as the reference. *)
Theorem precision_recall_in_unit_interval (real : list node) :
  (~ In gap real ->
   forall reconstructed, reconstructed <> [] ->
     exists q, evaluate_precision real reconstructed = Returns q /\
               (0 <= q <= 1)%Q) /\
  (forall matched q, evaluate_recall real matched = Returns q ->
     (0 <= q <= 1)%Q) /\
  (forall matched, matched <> [] -> length real <= length matched ->
     exists q, evaluate_recall real matched = Returns q).
Proof.
  split; [|split].
  - intros Hgap reconstructed Hne.
    unfold evaluate_precision. rewrite get_true_positive_matched. simpl.
    destruct reconstructed as [|x rec']; [congruence|].
    simpl length. unfold py_div. eexists. split; [reflexivity|].
    apply ratio_in_unit_interval.
    pose proof (agree_match_from_bound real (x :: rec') 0 Hgap) as Hb.
    simpl in Hb. unfold match_reconstruction. lia.
  - intros matched q H. unfold evaluate_recall, get_true_positive in H.
    destruct (true_positive_from real matched 0 0) as [tp|e] eqn:Htp;
      simpl in H; [|discriminate].
    apply true_positive_from_returns in Htp. destruct Htp as [Hc Hlen].
    unfold py_div in H. destruct (length matched) as [|b] eqn:Hb; [discriminate|].
    inversion H; subst q. apply ratio_in_unit_interval.
    destruct real as [|r real']; simpl in *; [lia|].
    assert (r :: real' <> []) by discriminate. specialize (Hlen H0). lia.
  - intros matched Hne Hlen. unfold evaluate_recall, get_true_positive.
    rewrite (true_positive_from_agree real matched matched 0 0);
      [|reflexivity|assumption].
    simpl. destruct matched; [congruence|]. simpl. eexists. reflexivity.
Qed.

(** C7, witness: scenario B of the specification, for the precision and
    for the recall. *)
Lemma precision_recall_scenario_B :
  (exists q, evaluate_precision ["A";"B";"C"] ["A";"C"] = Returns q /\
             (0 <= q <= 1)%Q) /\
  (exists q, evaluate_recall ["A";"B";"C"] ["A"; gap; "C"] = Returns q).
Proof.
  split.
  - apply (proj1 (precision_recall_in_unit_interval ["A";"B";"C"])).
    + simpl. unfold gap. intros [H|[H|[H|H]]]; try discriminate H; exact H.
    + discriminate.
  - apply (proj2 (proj2 (precision_recall_in_unit_interval ["A";"B";"C"]))).
    + discriminate.
    + simpl. lia.
Defined.

(** C7, counterexample: a reference made of two nodes named [" "] aligns
    with two gap markers, both counted as true positives against a single
    reconstructed node. *)
Lemma precision_exceeds_one_on_gap_named_nodes :
  evaluate_precision [" "; " "] ["A"] = Returns (2 # 1)%Q /\
  ~ (2 # 1 <= 1)%Q.
Proof.
  split; [reflexivity|]. unfold Qle. simpl. lia.
Qed.

(** ** Graphs built through the library interface *)

Lemma mem_In (x : node) (l : list node) : mem x l = true <-> In x l.
Proof.
  unfold mem. rewrite existsb_exists. split.
  - intros [y [Hy Hxy]]. apply String.eqb_eq in Hxy. now subst.
  - intros H. exists x. split; [exact H | apply String.eqb_refl].
Qed.

Lemma add_node_NoDup (g : DiGraph) (n : node) :
  NoDup (nodes g) -> NoDup (nodes (add_node g n)).
Proof.
  intros H. unfold add_node. destruct (mem n (nodes g)) eqn:Hm; [exact H|].
  simpl. apply NoDup_app; [exact H | repeat constructor; tauto |].
  intros a Ha [<-|[]].
  apply mem_In in Ha. congruence.
Qed.

Lemma add_edge_NoDup (g : DiGraph) (a b : node) :
  NoDup (nodes g) -> NoDup (nodes (add_edge g a b)).
Proof.
  intros H. unfold add_edge.
  destruct (has_edge _ a b); simpl; now repeat apply add_node_NoDup.
Qed.

Lemma DiGraph_of_NoDup (l : list edge) : NoDup (nodes (DiGraph_of l)).
Proof.
  unfold DiGraph_of.
  assert (H : forall g, NoDup (nodes g) ->
                NoDup (nodes (fold_left (fun g e => add_edge g (fst e) (snd e)) l g))).
  { induction l as [|e l IH]; intros g Hg; simpl; [exact Hg|].
    apply IH. now apply add_edge_NoDup. }
  apply H. constructor.
Qed.

(** ** The source node *)

Lemma filter_none {A : Type} (f : A -> bool) (l : list A) :
  (forall m, In m l -> f m = false) -> filter f l = [].
Proof.
  induction l as [|a l IH]; intros H; simpl; [reflexivity|].
  rewrite (H a (or_introl eq_refl)). apply IH.
  intros m Hm. apply H. now right.
Qed.

Lemma filter_only {A : Type} (f : A -> bool) (l : list A) (n : A) :
  NoDup l -> In n l -> f n = true ->
  (forall m, In m l -> f m = true -> m = n) ->
  filter f l = [n].
Proof.
  induction l as [|a l IH]; intros Hnd Hin Hf Huniq; [destruct Hin|].
  inversion Hnd as [|a' l' Hnotin Hnd']; subst.
  simpl. destruct Hin as [->|Hin].
  - rewrite Hf. f_equal. apply filter_none.
    intros m Hm. destruct (f m) eqn:Hfm; [|reflexivity].
    exfalso. apply Hnotin.
    rewrite <- (Huniq m (or_intror Hm) Hfm). exact Hm.
  - destruct (f a) eqn:Hfa.
    + exfalso. apply Hnotin.
      rewrite (Huniq a (or_introl eq_refl) Hfa). exact Hin.
    + apply IH; auto. intros m Hm. apply Huniq. now right.
Qed.

Lemma two_members_length {A : Type} (l : list A) (a b : A) :
  In a l -> In b l -> a <> b -> 2 <= length l.
Proof.
  destruct l as [|x [|y l]]; simpl; intros Ha Hb Hab; [destruct Ha| |lia].
  destruct Ha as [<-|[]]. destruct Hb as [<-|[]]. congruence.
Qed.

Lemma get_source_exits (g : DiGraph) :
  length (zero_in_degree_nodes g) <> 1 ->
  get_source g = Raises (SystemExit (zero_in_degree_nodes g)).
Proof.
  intros H. unfold get_source.
  apply Nat.eqb_neq in H. now rewrite H.
Qed.

(** C9: on a graph whose node list has no repetition, [get_source] returns
    the node without incoming edge when there is exactly one, and leaves
    through [exit()], after printing the list of such nodes, when there is
    none or when there are two different ones. *)
Theorem get_source_unique_or_exit (g : DiGraph) :
  NoDup (nodes g) ->
  (forall n, In n (nodes g) -> in_degree g n = 0 ->
     (forall m, In m (nodes g) -> in_degree g m = 0 -> m = n) ->
     get_source g = Returns n) /\
  ((forall m, In m (nodes g) -> in_degree g m <> 0) ->
     get_source g = Raises (SystemExit [])) /\
  (forall m1 m2, In m1 (nodes g) -> In m2 (nodes g) -> m1 <> m2 ->
     in_degree g m1 = 0 -> in_degree g m2 = 0 ->
     get_source g = Raises (SystemExit (zero_in_degree_nodes g))).
Proof.
  intros Hnd. split; [|split].
  - intros n Hin Hdeg Huniq. unfold get_source, zero_in_degree_nodes.
    rewrite (filter_only (fun n => in_degree g n =? 0) (nodes g) n); auto.
    + now apply Nat.eqb_eq.
    + intros m Hm Hfm. apply Huniq; auto. now apply Nat.eqb_eq.
  - intros Hnone.
    assert (Hz : zero_in_degree_nodes g = []).
    { apply filter_none. intros m Hm. apply Nat.eqb_neq. now apply Hnone. }
    rewrite (get_source_exits g); [now rewrite Hz | now rewrite Hz].
  - intros m1 m2 H1 H2 Hne Hd1 Hd2. apply get_source_exits.
    assert (2 <= length (zero_in_degree_nodes g)).
    { apply (two_members_length _ m1 m2); auto;
        apply filter_In; split; auto; now apply Nat.eqb_eq. }
    lia.
Qed.

(** C9, witness: the call graph of the demonstration has the single source
    [A]. *)
Lemma get_source_of_demo_graph : get_source demo_graph = Returns "A".
Proof.
  apply (proj1 (get_source_unique_or_exit demo_graph (DiGraph_of_NoDup _))).
  - vm_compute. now left.
  - reflexivity.
  - intros m Hm Hdeg. vm_compute in Hm.
    repeat (destruct Hm as [<-|Hm]; [try reflexivity; vm_compute in Hdeg; discriminate Hdeg|]).
    destruct Hm.
Defined.

(** ** is_path_direct *)

(** What the first loop of [is_path_direct] collects as [sources]: the
    inspected node itself, once per incoming edge. *)
Lemma collected_sources_repeat_the_node (g : DiGraph) (n : node) :
  map snd (in_edges g n) = repeat n (in_degree g n).
Proof.
  unfold in_degree, in_edges.
  induction (edges g) as [|[a b] l IH]; cbn; [reflexivity|].
  destruct (String.eqb_spec b n) as [He|He]; cbn; [|exact IH].
  now rewrite IH, He.
Qed.

Lemma mem_repeat_other (x n : node) (k : nat) :
  x <> n -> mem x (repeat n k) = false.
Proof.
  intros H. induction k as [|k IH]; simpl; [reflexivity|].
  apply String.eqb_neq in H. now rewrite H.
Qed.

Lemma mem_destinations (g : DiGraph) (a b : node) :
  mem b (map snd (out_edges g a)) = has_edge g a b.
Proof.
  unfold has_edge, out_edges, mem, edge_eqb.
  induction (edges g) as [|[x y] l IH]; cbn; [reflexivity|].
  rewrite (String.eqb_sym a x).
  destruct (String.eqb x a); cbn; [|exact IH].
  now rewrite IH.
Qed.

Lemma stutter_free_app_r (pre l : Path) :
  stutter_free (pre ++ l) -> stutter_free l.
Proof.
  induction pre as [|a pre IH]; simpl; [tauto|].
  destruct (pre ++ l) as [|b rest] eqn:Hrest.
  - destruct pre; [simpl in Hrest; now subst | discriminate].
  - intros [_ H]. now apply IH.
Qed.

(** On a path without stutter the first loop ends at the last position it
    visits, whatever the graph. *)
Lemma dir_change_scan_ends_last (g : DiGraph) (todo : list node) :
  forall (pre : list node) (x : node) (d : nat),
    stutter_free (pre ++ todo ++ [x]) ->
    todo <> [] ->
    dir_change_scan g (pre ++ todo ++ [x]) todo (length pre) d
    = length pre + length todo - 1.
Proof.
  induction todo as [|n todo IH]; intros pre x d Hsf Hne; [congruence|].
  cbn [dir_change_scan].
  rewrite collected_sources_repeat_the_node.
  rewrite app_nth2_plus.
  assert (Hnext : nth 1 ((n :: todo) ++ [x]) "" <> n).
  { apply stutter_free_app_r in Hsf. simpl in Hsf.
    destruct (todo ++ [x]) as [|b rest] eqn:Hrest.
    - now destruct todo.
    - simpl. rewrite Hrest. simpl. intros ->. now destruct Hsf. }
  rewrite (mem_repeat_other _ _ _ Hnext). cbn [negb].
  destruct todo as [|n' todo'].
  - simpl. lia.
  - replace (pre ++ (n :: n' :: todo') ++ [x])
      with ((pre ++ [n]) ++ (n' :: todo') ++ [x])
      by (now rewrite <- app_assoc).
    replace (S (length pre)) with (length (pre ++ [n]))
      by (rewrite length_app; simpl; lia).
    rewrite IH.
    + rewrite length_app. simpl. lia.
    + now rewrite <- app_assoc.
    + discriminate.
Qed.

(** What [is_path_direct] computes on a path without stutter that has at
    least two nodes: the last two nodes when the graph has an edge from the
    node before last to the second node of the path, and the empty list
    otherwise. *)
Lemma is_path_direct_on_stutter_free_path (g : DiGraph) (pre : list node)
    (a b : node) :
  stutter_free (pre ++ [a; b]) ->
  is_path_direct g (pre ++ [a; b])
  = if has_edge g a (nth 1 (pre ++ [a; b]) "") then [a; b] else [].
Proof.
  intros Hsf. unfold is_path_direct.
  assert (Hrl : removelast (pre ++ [a; b]) = pre ++ [a]).
  { rewrite removelast_app by discriminate. reflexivity. }
  assert (Hd : dir_change_scan g (pre ++ [a; b]) (removelast (pre ++ [a; b])) 0 0
               = length pre).
  { rewrite Hrl.
    pose proof (dir_change_scan_ends_last g (pre ++ [a]) [] b 0) as H.
    simpl in H. rewrite <- app_assoc in H. simpl in H.
    rewrite H.
    - rewrite length_app. simpl. lia.
    - exact Hsf.
    - now destruct pre. }
  rewrite Hd.
  assert (Hs : skipn (length pre) (pre ++ [a; b]) = [a; b]).
  { rewrite skipn_app, skipn_all, Nat.sub_diag. reflexivity. }
  rewrite Hs. cbn [removelast forward_scan]. rewrite mem_destinations.
  now destruct (has_edge g a _).
Qed.

(** C4, evaluated on the chain A -> B -> C of the docstring: every
    consecutive pair of the path (A, B, C) is an edge of the graph, and
    [is_path_direct] returns the empty list. *)
Theorem is_path_direct_rejects_forward_chain :
  has_edge chain_graph "A" "B" = true /\
  has_edge chain_graph "B" "C" = true /\
  is_path_direct chain_graph ["A";"B";"C"] = [].
Proof.
  repeat split; reflexivity.
Qed.

(** ** The candidate searches *)

Lemma cap10_length {A : Type} (l : list A) : length (cap10 l) <= 10.
Proof.
  unfold cap10. destruct (Nat.ltb_spec 10 (length l)) as [H|H]; [|exact H].
  apply firstn_le_length.
Qed.

Lemma cap10_truthy {A : Type} (l : list A) : truthy (cap10 l) = truthy l.
Proof.
  unfold cap10. destruct (10 <? length l); [|reflexivity].
  now destruct l.
Qed.

Lemma Forall_firstn {A : Type} (P : A -> Prop) (n : nat) (l : list A) :
  Forall P l -> Forall P (firstn n l).
Proof.
  intros H. rewrite <- (firstn_skipn n l) in H.
  apply Forall_app in H. tauto.
Qed.

Lemma Forall_cap10 {A : Type} (P : A -> Prop) (l : list A) :
  Forall P l -> Forall P (cap10 l).
Proof.
  intros H. unfold cap10. destruct (10 <? length l); [|exact H].
  now apply Forall_firstn.
Qed.

Lemma truthy_app_last {A : Type} (q : list A) (x : A) : truthy (q ++ [x]) = true.
Proof. now destruct q. Qed.

Lemma candidate_for_skipn (t : node) (p : Path) (d : nat) :
  candidate_for t p -> candidate_for t (skipn d p).
Proof.
  intros [-> | [q ->]].
  - left. now destruct d.
  - rewrite skipn_app.
    destruct (d - length q) as [|k] eqn:Hk; simpl.
    + right. now exists (skipn d q).
    + left. rewrite skipn_all2 by lia. now destruct k.
Qed.

Lemma candidate_for_is_path_direct (g : DiGraph) (t : node) (p : Path) :
  candidate_for t p -> candidate_for t (is_path_direct g p).
Proof.
  intros H. unfold is_path_direct.
  destruct (forward_scan _ _ _ _); [|now left].
  now apply candidate_for_skipn.
Qed.

Lemma append_direct_suffixes_candidates (g : DiGraph) (t : node) (fuel : nat) :
  forall (paths paths' : list Path) (i : nat),
    Forall (candidate_for t) paths ->
    append_direct_suffixes fuel g paths i = Some paths' ->
    Forall (candidate_for t) paths'.
Proof.
  induction fuel as [|fuel IH]; intros paths paths' i Hall H; simpl in H;
    destruct (nth_error paths i) as [p|] eqn:Hp;
    try discriminate; try (inversion H; subst; assumption).
  apply IH in H; [exact H|].
  destruct (truthy (is_path_direct g p)); [|exact Hall].
  apply Forall_app. split; [exact Hall|].
  constructor; [|constructor].
  apply candidate_for_is_path_direct.
  apply nth_error_In in Hp. rewrite Forall_forall in Hall. now apply Hall.
Qed.

Lemma clean_paths_candidates (t : node) (paths : list Path) (logged : list node) :
  Forall (candidate_for t) paths ->
  Forall (candidate_for t) (clean_paths paths logged).
Proof.
  intros H. rewrite Forall_forall in *. intros p Hp.
  apply filter_In in Hp. apply H. tauto.
Qed.

Lemma nth_candidate (t : node) (paths : list Path) (n : nat) :
  Forall (candidate_for t) paths -> candidate_for t (nth n paths []).
Proof.
  intros H. destruct (nth_in_or_default n paths []) as [Hin | ->]; [|now left].
  rewrite Forall_forall in H. now apply H.
Qed.

Lemma Subseq_app_l (q l m : list node) : Subseq l m -> Subseq l (q ++ m).
Proof.
  intros H. induction q as [|x q IH]; simpl; [exact H|].
  now apply Subseq_skip.
Qed.

Lemma Subseq_segment (t : node) (q l m : list node) :
  Subseq l m -> Subseq (t :: l) ((q ++ [t]) ++ m).
Proof.
  intros H. rewrite <- app_assoc. simpl.
  apply Subseq_app_l. now apply Subseq_take.
Qed.

Lemma self_loop_calls_itself (g : DiGraph) (n : node) :
  In (n, n) (edges g) -> calls_itself g n n = true.
Proof.
  intros H. unfold calls_itself. apply existsb_exists.
  exists (n, n). split; [|apply String.eqb_refl].
  unfold out_edges. apply filter_In. split; [exact H|apply String.eqb_refl].
Qed.

Section ReconstructionFacts.

Variable search : DiGraph -> node -> node -> option (list Path).
Variable Rng : Type.
Variable randbelow : Rng -> nat -> nat * Rng.

Lemma k_shortest_paths_after_raise (G : DiGraph) (s t : node) (k : nat) :
  search G s t = None -> k_shortest_paths search G s t k = [[]].
Proof. intros H. unfold k_shortest_paths. now rewrite H. Qed.

Lemma k_shortest_paths_length (G : DiGraph) (s t : node) :
  length (k_shortest_paths search G s t K) <= 7.
Proof.
  unfold k_shortest_paths. destruct (search G s t) as [ps|]; [|simpl; lia].
  apply firstn_le_length.
Qed.

Lemma cut_scan_returns_suffix (g : DiGraph) (path : Path) (todo : list node) :
  forall (index : nat) (p : list node),
    cut_scan search g path todo index = Returns p ->
    exists i, p = skipn i path.
Proof.
  induction todo as [|n todo IH]; intros index p H; simpl in H; [discriminate|].
  destruct (truthy _); [|now apply IH in H].
  inversion H. now exists index.
Qed.

(** *** With a search that delivers a path whenever it does not raise *)

Section SearchDeliversOrRaises.

Hypothesis delivers_or_raises : forall G s t, search G s t <> Some [].

Lemma k_shortest_paths_truthy (G : DiGraph) (s t : node) :
  truthy (cap10 (k_shortest_paths search G s t K)) = true.
Proof.
  rewrite cap10_truthy. unfold k_shortest_paths.
  destruct (search G s t) as [[|p ps]|] eqn:H; try reflexivity.
  now apply delivers_or_raises in H.
Qed.

Lemma cut_executed_nodes_keeps_path (g : DiGraph) (n : node) (path : Path) :
  cut_executed_nodes search g (n :: path) = Returns (n :: path).
Proof.
  unfold cut_executed_nodes. simpl cut_scan.
  now rewrite k_shortest_paths_truthy.
Qed.

Lemma search_and_select_returns (fuel : nat) (g u : DiGraph) (n1 n2 : node)
    (logged : list node) (r : Rng) :
  exists found r',
    search_and_select search Rng randbelow fuel g u n1 n2 logged r
    = Some (Returns (found, r')).
Proof.
  unfold search_and_select. rewrite k_shortest_paths_truthy. simpl.
  destruct (truthy (clean_paths _ _)); simpl; [|now eexists; eexists].
  destruct (random_choice _ _ _ _ _) as [chosen r']. now eexists; eexists.
Qed.

Lemma find_execution_path_returns (fuel : nat) (g u : DiGraph)
    (n1 n2 last_dif : node) (logged : list node) (r : Rng) :
  exists found r',
    find_execution_path search Rng randbelow fuel g u n1 n2 last_dif logged r
    = Some (Returns (found, r')).
Proof.
  unfold find_execution_path.
  destruct (n1 =? n2)%string; [|apply search_and_select_returns].
  destruct (calls_itself g n1 n2); [now eexists; eexists|].
  apply search_and_select_returns.
Qed.

Lemma reconstruct_loop_returns (fuel : nat) (g u : DiGraph) (logged logs : list node) :
  forall (reconstruction : list node) (r : Rng),
    reconstruction <> [] ->
    exists out r',
      reconstruct_loop search Rng randbelow fuel g u logged logs reconstruction r
      = Some (Returns (out, r')).
Proof.
  induction logs as [|n logs IH]; intros reconstruction r Hne; simpl.
  - now eexists; eexists.
  - destruct reconstruction as [|x rest]; [congruence|].
    destruct (find_execution_path_returns fuel g u (last (x :: rest) "") n
                (find_last_dif (x :: rest) n) logged r) as [found [r' ->]].
    apply IH. simpl. discriminate.
Qed.

End SearchDeliversOrRaises.

End ReconstructionFacts.

(** *** With a search whose paths end at the requested target *)

Section SearchReachesTarget.

Variable search : DiGraph -> node -> node -> option (list Path).
Variable Rng : Type.
Variable randbelow : Rng -> nat -> nat * Rng.

Hypothesis reaches_target :
  forall G s t ps p, search G s t = Some ps -> In p ps -> exists q, p = q ++ [t].

Lemma k_shortest_paths_candidates (G : DiGraph) (s t : node) (k : nat) :
  Forall (candidate_for t) (k_shortest_paths search G s t k).
Proof.
  unfold k_shortest_paths. destruct (search G s t) as [ps|] eqn:H.
  - apply Forall_firstn. apply Forall_forall. intros p Hp.
    right. exact (reaches_target G s t ps p H Hp).
  - constructor; [now left|constructor].
Qed.

Lemma search_and_select_candidate (fuel : nat) (g u : DiGraph) (n1 n2 : node)
    (logged : list node) (r r' : Rng) (found : Path) :
  search_and_select search Rng randbelow fuel g u n1 n2 logged r
  = Some (Returns (found, r')) ->
  candidate_for n2 found.
Proof.
  unfold search_and_select.
  set (direct := cap10 (k_shortest_paths search g n1 n2 K)).
  assert (Hdirect : Forall (candidate_for n2) direct)
    by (apply Forall_cap10, k_shortest_paths_candidates).
  destruct (truthy direct); simpl.
  - destruct (truthy (clean_paths direct logged)); simpl.
    + unfold random_choice. destruct (randbelow r _) as [i r1].
      intros H. inversion H; subst.
      now apply nth_candidate, clean_paths_candidates.
    + intros H. inversion H. now left.
  - destruct (append_direct_suffixes fuel g _ 0) as [pool|] eqn:Hpool;
      [|discriminate].
    assert (Hp : Forall (candidate_for n2) pool).
    { apply (append_direct_suffixes_candidates g n2 fuel _ pool 0) in Hpool;
        [exact Hpool|apply k_shortest_paths_candidates]. }
    destruct (truthy (clean_paths pool logged)); simpl.
    + unfold random_choice. destruct (randbelow r _) as [i r1].
      unfold cut_executed_nodes.
      destruct (cut_scan search g _ _ 0) as [p|e] eqn:Hcut; simpl;
        [|discriminate].
      intros H. inversion H; subst.
      apply cut_scan_returns_suffix in Hcut. destruct Hcut as [j ->].
      now apply candidate_for_skipn, nth_candidate, clean_paths_candidates.
    + intros H. inversion H. now left.
Qed.

Lemma find_execution_path_candidate (fuel : nat) (g u : DiGraph)
    (n1 n2 last_dif : node) (logged : list node) (r r' : Rng) (found : Path) :
  find_execution_path search Rng randbelow fuel g u n1 n2 last_dif logged r
  = Some (Returns (found, r')) ->
  candidate_for n2 found.
Proof.
  unfold find_execution_path.
  destruct (n1 =? n2)%string; [|apply search_and_select_candidate].
  destruct (calls_itself g n1 n2); [|apply search_and_select_candidate].
  intros H. inversion H. right. now exists [n1].
Qed.

(** What one log event adds to the reconstruction ends with that event. *)
Lemma appended_segment_ends_with_event (n : node) (found : Path) :
  candidate_for n found ->
  exists q, (if truthy (tl found) then tl found else [n]) = q ++ [n].
Proof.
  intros H. apply (candidate_for_skipn n found 1) in H.
  change (skipn 1 found) with (tl found) in H.
  destruct H as [-> | [q ->]].
  - now exists [].
  - rewrite truthy_app_last. now exists q.
Qed.

Lemma reconstruct_loop_extends (fuel : nat) (g u : DiGraph) (logged logs : list node) :
  forall (reconstruction out : list node) (r r' : Rng),
    reconstruct_loop search Rng randbelow fuel g u logged logs reconstruction r
    = Some (Returns (out, r')) ->
    exists ext,
      out = reconstruction ++ ext /\ Subseq logs ext /\ length logs <= length ext.
Proof.
  induction logs as [|n logs IH]; intros reconstruction out r r' H; simpl in H.
  - inversion H; subst. exists []. rewrite app_nil_r.
    repeat split; [constructor | simpl; lia].
  - destruct reconstruction as [|x rest]; [discriminate|].
    destruct (find_execution_path search Rng randbelow fuel g u
                (last (x :: rest) "") n (find_last_dif (x :: rest) n) logged r)
      as [[[found r1]|e]|] eqn:Hfound; try discriminate.
    apply find_execution_path_candidate in Hfound.
    destruct (appended_segment_ends_with_event n found Hfound) as [q Hq].
    rewrite Hq in H. apply IH in H. destruct H as [ext [-> [Hsub Hlen]]].
    exists ((q ++ [n]) ++ ext). split; [|split].
    + now rewrite !app_assoc.
    + now apply Subseq_segment.
    + repeat rewrite length_app. simpl. lia.
Qed.

End SearchReachesTarget.

(** ** The reference model of the library search meets both contracts *)

Lemma nx_delivers_or_raises (G : DiGraph) (s t : node) :
  nx_shortest_simple_paths G s t <> Some [].
Proof.
  unfold nx_shortest_simple_paths.
  destruct (negb (mem s (nodes G)) || negb (mem t (nodes G))); [discriminate|].
  destruct (sort_by_length _); discriminate.
Qed.

Lemma simple_paths_end_at_target (G : DiGraph) (t : node) (fuel : nat) :
  forall (visited : list node) (s : node) (p : Path),
    In p (simple_paths_from fuel G visited s t) -> exists q, p = q ++ [t].
Proof.
  induction fuel as [|fuel IH]; intros visited s p H;
    cbn [simple_paths_from] in H; [destruct H|].
  destruct (String.eqb_spec s t) as [-> | Hne].
  - destruct H as [<-|[]]. now exists [].
  - apply in_flat_map in H. destruct H as [e [_ H]]. cbv beta in H.
    destruct (mem (snd e) (s :: visited)); [destruct H|].
    apply in_map_iff in H. destruct H as [p' [<- Hp']].
    apply IH in Hp'. destruct Hp' as [q ->]. now exists (s :: q).
Qed.

Lemma insert_by_length_In (p x : Path) (l : list Path) :
  In x (insert_by_length p l) -> x = p \/ In x l.
Proof.
  induction l as [|q l IH]; simpl.
  - intros [<-|[]]. now left.
  - destruct (length p <? length q); simpl.
    + intros [<-|H]; [now left | now right].
    + intros [<-|H]; [right; now left|].
      apply IH in H. destruct H; [now left | right; now right].
Qed.

Lemma sort_by_length_In (x : Path) (l : list Path) :
  In x (sort_by_length l) -> In x l.
Proof.
  unfold sort_by_length. rewrite (in_rev l).
  induction (rev l) as [|p l' IH]; simpl; [tauto|].
  intros H. apply insert_by_length_In in H.
  destruct H as [-> | H]; [now left | right; now apply IH].
Qed.

Lemma nx_reaches_target (G : DiGraph) (s t : node) (ps : list Path) (p : Path) :
  nx_shortest_simple_paths G s t = Some ps -> In p ps -> exists q, p = q ++ [t].
Proof.
  unfold nx_shortest_simple_paths.
  destruct (negb (mem s (nodes G)) || negb (mem t (nodes G))); [discriminate|].
  destruct (sort_by_length _) as [|p0 ps0] eqn:Hs; [discriminate|].
  intros H Hp. inversion H; subst ps. rewrite <- Hs in Hp.
  apply sort_by_length_In in Hp.
  now apply simple_paths_end_at_target in Hp.
Qed.

(** ** The loop that appends to the list it iterates over *)

(** A candidate that [is_path_direct] maps to itself is appended again at
    every step: the loop of Case 2, started on copies of it, never reaches
    the end of its list. *)
Lemma append_direct_suffixes_keeps_growing (g : DiGraph) (p : Path) (fuel : nat) :
  is_path_direct g p = p -> truthy p = true ->
  forall n i, i <= n ->
    append_direct_suffixes fuel g (repeat p (S n)) i = None.
Proof.
  intros Hfix Htruthy.
  induction fuel as [|fuel IH]; intros n i Hi;
    remember (repeat p (S n)) as l eqn:Hl;
    destruct (nth_error l i) as [x|] eqn:Hn;
    try (apply nth_error_None in Hn; rewrite Hl, repeat_length in Hn; lia);
    simpl; rewrite Hn; [reflexivity|].
  rewrite Hl in Hn. apply nth_error_In, repeat_spec in Hn. subst x.
  rewrite Hfix, Htruthy.
  replace (l ++ [p]) with (repeat p (S (S n))).
  - apply IH. lia.
  - subst l. change [p] with (repeat p 1).
    rewrite <- repeat_app. f_equal. lia.
Qed.

(** The path (A, B) on the graph A -> B -> C is such a candidate. *)
Lemma chain_prefix_is_kept : is_path_direct chain_graph ["A"; "B"] = ["A"; "B"].
Proof. reflexivity. Qed.

(** ** The claims about the reconstruction engine *)

(** C1, evaluated where no path exists (B to C in the graph A -> B, A -> C)
    and where the search fails (Z is not a node): [k_shortest_paths]
    returns the one-element list holding the empty path, which is truthy
    and has length 1. *)
Theorem k_shortest_paths_without_path_holds_empty_path :
  nx_shortest_simple_paths fork_graph "B" "C" = None /\
  k_shortest_paths nx_shortest_simple_paths fork_graph "B" "C" K = [[]] /\
  k_shortest_paths nx_shortest_simple_paths fork_graph "B" "Z" K = [[]] /\
  truthy (k_shortest_paths nx_shortest_simple_paths fork_graph "B" "C" K) = true.
Proof.
  repeat split; reflexivity.
Qed.

(** C2, evaluated on the graph A -> B, A -> C and the path (B, A, C): no
    directed path leads from B to C, one leads from A to C, and
    [cut_executed_nodes] returns the whole path, B included. *)
Theorem cut_executed_nodes_keeps_unreachable_prefix :
  nx_shortest_simple_paths fork_graph "B" "C" = None /\
  nx_shortest_simple_paths fork_graph "A" "C" = Some [["A"; "C"]] /\
  cut_executed_nodes nx_shortest_simple_paths fork_graph ["B"; "A"; "C"]
  = Returns ["B"; "A"; "C"].
Proof.
  repeat split; reflexivity.
Qed.

(** C3: with a library search that delivers at least one path whenever it
    does not raise, [reconstruct_path] returns a reconstruction for every
    graph, log sequence, source and random source, without using any of the
    fuel of the one loop that can grow its own work list; every bounded
    search returns at most 7 paths and every capped list holds at most
    10. *)
Theorem reconstruct_path_terminates
    (search : DiGraph -> node -> node -> option (list Path))
    (Rng : Type) (randbelow : Rng -> nat -> nat * Rng) :
  (forall G s t, search G s t <> Some []) ->
  (forall fuel g logs source r,
     exists out r',
       reconstruct_path search Rng randbelow fuel g logs source r
       = Some (Returns (out, r'))) /\
  (forall G s t, length (k_shortest_paths search G s t K) <= 7) /\
  (forall G s t, length (cap10 (k_shortest_paths search G s t K)) <= 10).
Proof.
  intros H. split; [|split].
  - intros fuel g logs source r. unfold reconstruct_path.
    destruct (reconstruct_loop_returns search Rng randbelow H fuel g
                (to_undirected g) logs logs [source] r) as [out [r' ->]];
      [discriminate|].
    now eexists; eexists.
  - intros G s t. apply k_shortest_paths_length.
  - intros G s t. apply cap10_length.
Qed.

(** C3, witness: the reference search on the demonstration graph, with no
    fuel at all. *)
Lemma reconstruct_path_terminates_on_demo :
  exists out r',
    reconstruct_path nx_shortest_simple_paths draws next_draw 0
      demo_graph demo_logs "A" [0; 1; 2; 3]
    = Some (Returns (out, r')).
Proof.
  apply (reconstruct_path_terminates nx_shortest_simple_paths draws next_draw).
  exact nx_delivers_or_raises.
Defined.

(** C6: with a library search whose paths end at the requested target,
    every completed reconstruction is at least as long as the log sequence
    and contains it as a subsequence, in order. *)
Theorem reconstruction_contains_logs
    (search : DiGraph -> node -> node -> option (list Path))
    (Rng : Type) (randbelow : Rng -> nat -> nat * Rng)
    (fuel : nat) (g : DiGraph) (logs : list node) (source : node)
    (r r' : Rng) (out : list node) :
  (forall G s t ps p, search G s t = Some ps -> In p ps ->
     exists q, p = q ++ [t]) ->
  reconstruct_path search Rng randbelow fuel g logs source r
  = Some (Returns (out, r')) ->
  length logs <= length out /\ Subseq logs out.
Proof.
  intros Hsearch H. unfold reconstruct_path in H.
  destruct (reconstruct_loop search Rng randbelow fuel g (to_undirected g)
              logs logs [source] r) as [[[rec r1]|e]|] eqn:Hloop;
    try discriminate.
  inversion H; subst.
  apply (reconstruct_loop_extends search Rng randbelow Hsearch) in Hloop.
  destruct Hloop as [ext [-> [Hsub Hlen]]]. simpl. tauto.
Qed.

(** C6, witness: the run of the demonstration script. *)
Lemma demo_reconstruction_contains_logs :
  length demo_logs
    <= length ["C"; "E"; "B"; "G"; "E"; "E"; "E"; "E"; "E"; "B"; "B"; "G";
               "E"; "E"; "B"; "G"; "E"] /\
  Subseq demo_logs
    ["C"; "E"; "B"; "G"; "E"; "E"; "E"; "E"; "E"; "B"; "B"; "G";
     "E"; "E"; "B"; "G"; "E"].
Proof.
  apply (reconstruction_contains_logs nx_shortest_simple_paths draws next_draw
           0 demo_graph demo_logs "A" [0; 1; 2; 3] []).
  - exact nx_reaches_target.
  - vm_compute. reflexivity.
Defined.

(** C8: when [n] has the edge (n, n) and is both the current node and the
    target, [find_execution_path] returns [n, n] and leaves the random
    source untouched, whatever the draw function and its state. *)
Theorem self_loop_segment_is_deterministic
    (search : DiGraph -> node -> node -> option (list Path))
    (Rng : Type) (randbelow1 randbelow2 : Rng -> nat -> nat * Rng)
    (fuel : nat) (g u : DiGraph) (n last_dif : node) (logged : list node)
    (r1 r2 : Rng) :
  In (n, n) (edges g) ->
  find_execution_path search Rng randbelow1 fuel g u n n last_dif logged r1
  = Some (Returns ([n; n], r1)) /\
  find_execution_path search Rng randbelow2 fuel g u n n last_dif logged r2
  = Some (Returns ([n; n], r2)).
Proof.
  intros H. apply self_loop_calls_itself in H.
  unfold find_execution_path. rewrite String.eqb_refl, H. now split.
Qed.

(** C8, witness: node E of the demonstration graph calls itself. *)
Lemma self_loop_segment_of_demo_node_E :
  find_execution_path nx_shortest_simple_paths draws next_draw 0 demo_graph
    (to_undirected demo_graph) "E" "E" "C" demo_logs [4; 2]
  = Some (Returns (["E"; "E"], [4; 2])) /\
  find_execution_path nx_shortest_simple_paths draws (fun r n => (n, tl r)) 0
    demo_graph (to_undirected demo_graph) "E" "E" "C" demo_logs []
  = Some (Returns (["E"; "E"], [])).
Proof.
  apply (self_loop_segment_is_deterministic nx_shortest_simple_paths draws
           next_draw (fun r n => (n, tl r)) 0 demo_graph
           (to_undirected demo_graph) "E" "C" demo_logs [4; 2] []).
  vm_compute. tauto.
Defined.

(** ** The scenarios of the specification *)

(** Scenario A: the chain A -> B -> C -> D with the single log D. *)
Example scenario_direct_path :
  reconstruct_path nx_shortest_simple_paths draws next_draw 0
    (DiGraph_of [("A","B"); ("B","C"); ("C","D")]) ["D"] "A" []
  = Some (Returns (["B"; "C"; "D"], [])).
Proof. reflexivity. Qed.

(** Scenario B: the alignment of (A, C) with the reference (A, B, C). *)
Example scenario_evaluation :
  match_reconstruction ["A";"B";"C"] ["A";"C"] = ["A"; gap; "C"] /\
  get_true_positive ["A";"B";"C"] ["A"; gap; "C"] = Returns 2 /\
  evaluate_precision ["A";"B";"C"] ["A";"C"] = Returns (2 # 2)%Q /\
  evaluate_recall ["A";"B";"C"] ["A"; gap; "C"] = Returns (2 # 3)%Q.
Proof. repeat split; reflexivity. Qed.

(** Scenario C: two nodes without incoming edge. *)
Example scenario_two_sources :
  get_source (DiGraph_of [("A","B"); ("C","B")])
  = Raises (SystemExit ["A"; "C"]).
Proof. reflexivity. Qed.

(** Scenario D: C cannot be reached from B, the event is appended as it
    is. *)
Example scenario_fallback_insertion :
  reconstruct_path nx_shortest_simple_paths draws next_draw 0
    fork_graph ["B"; "C"] "A" []
  = Some (Returns (["B"; "C"], [])).
Proof. reflexivity. Qed.

(** The run of the demonstration script when every draw is 0. *)
Example demo_reconstruction :
  reconstruct_path nx_shortest_simple_paths draws next_draw 0
    demo_graph demo_logs "A" []
  = Some (Returns (["C"; "E"; "B"; "G"; "E"; "E"; "E"; "E"; "E"; "B"; "B";
                    "G"; "E"; "E"; "B"; "G"; "E"], [])).
Proof. vm_compute. reflexivity. Qed.

(** C10: with an empty log sequence [reconstruct_path] returns the empty
    list, for every graph, source node and search, and draws nothing from
    the random source. *)
Theorem reconstruct_path_of_no_logs
    (search : DiGraph -> node -> node -> option (list Path))
    (Rng : Type) (randbelow : Rng -> nat -> nat * Rng)
    (fuel : nat) (g : DiGraph) (source : node) (r : Rng) :
  reconstruct_path search Rng randbelow fuel g [] source r
  = Some (Returns ([], r)).
Proof.
  unfold reconstruct_path.
  cbn [reconstruct_loop].
  cbn [tl].
  reflexivity.
Qed.

(** * Further properties of the code *)

(** ** Alignment and counting *)

Lemma match_from_slots (real reconstructed : list node) :
  forall r_index,
    Forall2 (fun r m => m = gap \/ m = r) real
      (match_from real reconstructed r_index).
Proof.
  induction real as [|n real IH]; intros r_index; simpl; [constructor|].
  destruct (r_index =? length reconstructed);
    [constructor; [now left | apply IH]|].
  destruct (nth_error reconstructed r_index) as [x|];
    [|constructor; [now left | apply IH]].
  destruct (n =? x)%string; constructor; auto.
Qed.

(** X1: the alignment has one slot per reference node, and every slot holds
    either the gap marker or the reference node of its position. *)
Theorem match_reconstruction_aligned (real reconstructed : list node) :
  length (match_reconstruction real reconstructed) = length real /\
  Forall2 (fun r m => m = gap \/ m = r) real
    (match_reconstruction real reconstructed).
Proof.
  split.
  - apply match_from_length.
  - apply match_from_slots.
Qed.

Lemma true_positive_from_short (todo matched : list node) :
  forall index count,
    todo <> [] ->
    length matched < index + length todo ->
    true_positive_from todo matched index count = Raises IndexError.
Proof.
  induction todo as [|r todo IH]; intros index count Hne Hlen; [congruence|].
  simpl. destruct (nth_error matched index) as [m|] eqn:Hm; [|reflexivity].
  assert (Hi : index < length matched) by (apply nth_error_Some; congruence).
  destruct todo as [|r' todo']; [simpl in Hlen; lia|].
  apply IH; [discriminate | simpl in *; lia].
Qed.

(** X2: [get_true_positive] returns the number of positions at which the
    two lists agree when [matched] is at least as long as [real], and lets
    an [IndexError] escape when it is shorter. *)
Theorem get_true_positive_spec (real matched : list node) :
  get_true_positive real matched
  = if length real <=? length matched then Returns (agree real matched)
    else Raises IndexError.
Proof.
  unfold get_true_positive.
  destruct (Nat.leb_spec (length real) (length matched)) as [H|H].
  - now rewrite (true_positive_from_agree real matched matched 0 0).
  - apply true_positive_from_short; [|simpl; exact H].
    destruct real; [simpl in H; lia | discriminate].
Qed.

Lemma Subseq_nil_l (m : list node) : Subseq [] m.
Proof. induction m; constructor; assumption. Qed.

Lemma Subseq_tail (x : node) (l m : list node) :
  Subseq (x :: l) m -> Subseq l m.
Proof.
  induction m as [|y m IH]; intros H; inversion H; subst.
  - apply Subseq_skip. now apply IH.
  - now apply Subseq_skip.
Qed.

Lemma skipn_nth_error_cons {A : Type} (l : list A) :
  forall i x, nth_error l i = Some x -> skipn i l = x :: skipn (S i) l.
Proof.
  induction l as [|y l IH]; intros [|i] x H; simpl in *; try discriminate.
  - now inversion H.
  - now apply IH.
Qed.

(** The alignment is greedy: it consumes all of [reconstructed] from
    position [r_index] on exactly when that part is a subsequence of the
    reference. *)
Lemma greedy_alignment_complete (real reconstructed : list node) :
  ~ In gap real ->
  forall r_index,
    r_index <= length reconstructed ->
    Subseq (skipn r_index reconstructed) real ->
    agree real (match_from real reconstructed r_index)
    = length reconstructed - r_index.
Proof.
  induction real as [|n real IH]; intros Hgap r_index Hle Hsub.
  - inversion Hsub as [Hnil| |]. simpl.
    assert (Hl : length (skipn r_index reconstructed) = 0) by now rewrite <- Hnil.
    rewrite length_skipn in Hl. lia.
  - assert (Hn : (n =? gap)%string = false).
    { apply String.eqb_neq. intros ->. apply Hgap. now left. }
    assert (Hgap' : ~ In gap real) by (intros Hin; apply Hgap; now right).
    simpl. destruct (Nat.eqb_spec r_index (length reconstructed)) as [He|He].
    + simpl. rewrite Hn. simpl. apply IH; auto.
      rewrite He, skipn_all. apply Subseq_nil_l.
    + destruct (nth_error reconstructed r_index) as [x|] eqn:Hx.
      * rewrite (skipn_nth_error_cons _ _ _ Hx) in Hsub.
        destruct (String.eqb_spec n x) as [->|Hnx]; simpl.
        -- rewrite String.eqb_refl.
           rewrite IH; auto; [lia|lia|].
           inversion Hsub; subst; [now apply Subseq_tail in H1 | assumption].
        -- rewrite Hn. simpl. apply IH; auto.
           rewrite (skipn_nth_error_cons _ _ _ Hx).
           inversion Hsub; subst; [assumption | congruence].
      * apply nth_error_None in Hx. lia.
Qed.

Lemma greedy_alignment_sound (real reconstructed : list node) :
  ~ In gap real ->
  forall r_index,
    r_index <= length reconstructed ->
    agree real (match_from real reconstructed r_index)
    = length reconstructed - r_index ->
    Subseq (skipn r_index reconstructed) real.
Proof.
  induction real as [|n real IH]; intros Hgap r_index Hle Hag.
  - simpl in Hag. rewrite skipn_all2 by lia. constructor.
  - assert (Hn : (n =? gap)%string = false).
    { apply String.eqb_neq. intros ->. apply Hgap. now left. }
    assert (Hgap' : ~ In gap real) by (intros Hin; apply Hgap; now right).
    simpl in Hag.
    destruct (Nat.eqb_spec r_index (length reconstructed)) as [He|He].
    + rewrite He, skipn_all. apply Subseq_nil_l.
    + destruct (nth_error reconstructed r_index) as [x|] eqn:Hx.
      * rewrite (skipn_nth_error_cons _ _ _ Hx).
        destruct (String.eqb_spec n x) as [->|Hnx]; simpl in Hag.
        -- rewrite String.eqb_refl in Hag.
           apply Subseq_take. apply IH; auto; lia.
        -- rewrite Hn in Hag. simpl in Hag.
           apply Subseq_skip.
           rewrite <- (skipn_nth_error_cons _ _ _ Hx). now apply IH.
      * apply nth_error_None in Hx. lia.
Qed.

Lemma ratio_is_one (a b : nat) :
  (Z.of_nat a # Pos.of_nat (S b) == 1)%Q <-> a = S b.
Proof.
  unfold Qeq. cbn [Qnum Qden].
  rewrite <- Pos.of_nat_succ, Znat.Zpos_P_of_succ_nat. lia.
Qed.

(** X3: for a reference without node named like the gap marker and a
    non-empty reconstruction, the precision is 1 exactly when the
    reconstruction is a subsequence of the reference. *)
Theorem precision_is_one_iff_subsequence (real reconstructed : list node) :
  ~ In gap real ->
  reconstructed <> [] ->
  (Subseq reconstructed real <->
   exists q, evaluate_precision real reconstructed = Returns q /\ (q == 1)%Q).
Proof.
  intros Hgap Hne.
  destruct reconstructed as [|x rec']; [congruence|].
  unfold evaluate_precision. rewrite get_true_positive_matched.
  cbn [bind py_div length]. unfold match_reconstruction. split.
  - intros Hsub. eexists. split; [reflexivity|].
    apply ratio_is_one.
    rewrite (greedy_alignment_complete real (x :: rec') Hgap 0);
      [simpl; lia | simpl; lia | exact Hsub].
  - intros [q [Hq H1]]. inversion Hq; subst q. apply ratio_is_one in H1.
    apply (greedy_alignment_sound real (x :: rec') Hgap 0);
      [simpl; lia | simpl; lia].
Qed.

(** X3, witness: (A, C) inside (A, B, C). *)
Lemma precision_of_a_subsequence :
  exists q, evaluate_precision ["A";"B";"C"] ["A";"C"] = Returns q /\ (q == 1)%Q.
Proof.
  apply (precision_is_one_iff_subsequence ["A";"B";"C"] ["A";"C"]).
  - unfold gap. simpl. intros [H|[H|[H|H]]]; try discriminate H; exact H.
  - discriminate.
  - apply Subseq_take, Subseq_skip, Subseq_take, Subseq_nil.
Defined.

(** ** find_last_dif *)

Lemma first_dif_spec (new_node : node) (l : list node) :
  (Forall (eq new_node) l /\ first_dif l new_node = new_node) \/
  (exists k x post,
     l = repeat new_node k ++ x :: post /\ x <> new_node /\
     first_dif l new_node = x).
Proof.
  induction l as [|i l IH]; simpl.
  - left. split; [constructor | reflexivity].
  - destruct (String.eqb_spec i new_node) as [->|Hne]; simpl.
    + destruct IH as [[Hall Hres]|[k [x [post [Hl [Hx Hres]]]]]].
      * left. split; [now constructor | exact Hres].
      * right. exists (S k), x, post. simpl. now rewrite <- Hl.
    + right. now exists 0, i, l.
Qed.

(** X4: [find_last_dif] returns the last node of the list that differs
    from [new_node]: the list is some prefix, that node, then only copies of
    [new_node]; when every node of the list equals [new_node] (or the list
    is empty) it returns [new_node]. *)
Theorem find_last_dif_spec (nodes : list node) (new_node : node) :
  (Forall (eq new_node) nodes /\ find_last_dif nodes new_node = new_node) \/
  (exists pre x k,
     nodes = pre ++ x :: repeat new_node k /\ x <> new_node /\
     find_last_dif nodes new_node = x).
Proof.
  unfold find_last_dif.
  destruct (first_dif_spec new_node (rev nodes))
    as [[Hall Hres]|[k [x [post [Hl [Hx Hres]]]]]].
  - left. split; [|exact Hres].
    apply Forall_rev in Hall. now rewrite rev_involutive in Hall.
  - right. exists (rev post), x, k. repeat split; auto.
    rewrite <- (rev_involutive nodes), Hl, rev_app_distr. simpl.
    now rewrite rev_repeat, <- app_assoc.
Qed.

(** ** Bounded searches *)

(** X5: with a library search that delivers a path whenever it does not
    raise, [k_shortest_paths] with [k >= 1] returns between 1 and [k]
    candidates: its result is never the empty list. *)
Theorem k_shortest_paths_never_empty
    (search : DiGraph -> node -> node -> option (list Path))
    (G : DiGraph) (s t : node) (k : nat) :
  (forall G s t, search G s t <> Some []) ->
  1 <= k ->
  1 <= length (k_shortest_paths search G s t k) <= k.
Proof.
  intros Hsearch Hk. unfold k_shortest_paths.
  destruct (search G s t) as [[|p ps]|] eqn:H.
  - now apply Hsearch in H.
  - split; [|apply firstn_le_length].
    destruct k; [lia | simpl; lia].
  - simpl. lia.
Qed.

(** X5, witness: B to C in the graph A -> B, A -> C. *)
Lemma k_shortest_paths_never_empty_on_fork :
  1 <= length (k_shortest_paths nx_shortest_simple_paths fork_graph "B" "C" 7) <= 7.
Proof.
  apply (k_shortest_paths_never_empty nx_shortest_simple_paths fork_graph "B" "C" 7).
  - exact nx_delivers_or_raises.
  - lia.
Defined.

Lemma cut_scan_outcome
    (search : DiGraph -> node -> node -> option (list Path))
    (g : DiGraph) (path : Path) (todo : list node) :
  forall index,
    index + length todo = length path ->
    cut_scan search g path todo index = Raises (SystemExit path) \/
    exists i, i < length path /\
              cut_scan search g path todo index = Returns (skipn i path).
Proof.
  induction todo as [|n todo IH]; intros index Hlen; simpl; [now left|].
  destruct (truthy _).
  - right. exists index. simpl in Hlen. split; [lia | reflexivity].
  - apply IH. simpl in Hlen. lia.
Qed.

(** X6: whatever the library search does, [cut_executed_nodes] either
    leaves through [exit()] after printing the path, or returns a non-empty
    suffix of the path; on the empty path it always leaves through
    [exit()]. *)
Theorem cut_executed_nodes_outcome
    (search : DiGraph -> node -> node -> option (list Path))
    (g : DiGraph) (path : Path) :
  (cut_executed_nodes search g path = Raises (SystemExit path) \/
   exists i, i < length path /\
             cut_executed_nodes search g path = Returns (skipn i path)) /\
  cut_executed_nodes search g [] = Raises (SystemExit []).
Proof.
  split; [|reflexivity].
  unfold cut_executed_nodes. now apply cut_scan_outcome.
Qed.

(** X7: with a library search that delivers a path whenever it does not
    raise, [cut_executed_nodes] returns every non-empty path unchanged: no
    node is ever cut and [exit()] is never reached. *)
Theorem cut_executed_nodes_is_identity
    (search : DiGraph -> node -> node -> option (list Path))
    (g : DiGraph) (path : Path) :
  (forall G s t, search G s t <> Some []) ->
  path <> [] ->
  cut_executed_nodes search g path = Returns path.
Proof.
  intros Hsearch Hne. destruct path as [|n path]; [congruence|].
  unfold cut_executed_nodes. cbn [cut_scan].
  now rewrite (k_shortest_paths_truthy search Hsearch).
Qed.

(** X7, witness: the undirected path (E, G, B) of the demonstration graph,
    whose first node cannot reach its last. *)
Lemma cut_executed_nodes_is_identity_on_demo :
  cut_executed_nodes nx_shortest_simple_paths demo_graph ["E"; "G"; "B"]
  = Returns ["E"; "G"; "B"].
Proof.
  apply (cut_executed_nodes_is_identity nx_shortest_simple_paths).
  - exact nx_delivers_or_raises.
  - discriminate.
Defined.

(** ** is_path_direct *)

(** X8: on a path of nodes of the graph, without immediate repetition
    (every simple path is one) and with at least two nodes,
    [is_path_direct] returns the last two nodes when the graph has an edge
    from the node before last to the second node of the path, and the empty
    list otherwise. *)
Theorem is_path_direct_keeps_at_most_two_nodes (g : DiGraph) (pre : list node)
    (a b : node) :
  Forall (fun n => In n (nodes g)) (pre ++ [a; b]) ->
  stutter_free (pre ++ [a; b]) ->
  (has_edge g a (nth 1 (pre ++ [a; b]) "") = true ->
   is_path_direct g (pre ++ [a; b]) = [a; b]) /\
  (has_edge g a (nth 1 (pre ++ [a; b]) "") = false ->
   is_path_direct g (pre ++ [a; b]) = []).
Proof.
  intros _ Hsf. rewrite (is_path_direct_on_stutter_free_path g pre a b Hsf).
  split; intros ->; reflexivity.
Qed.

(** X8, witness: the undirected path (B, A, C) on the graph A -> B, A -> C;
    A has no edge to itself. *)
Lemma is_path_direct_rejects_fork_detour :
  is_path_direct fork_graph ["B"; "A"; "C"] = [].
Proof.
  apply (is_path_direct_keeps_at_most_two_nodes fork_graph ["B"] "A" "C").
  - vm_compute. repeat constructor; tauto.
  - simpl. repeat split; discriminate.
  - reflexivity.
Defined.

(** X9: the paths of at most two nodes.  The empty path and a single name
    are returned as they are; a pair of nodes of the graph is returned
    exactly when it is an edge of the graph. *)
Theorem is_path_direct_on_short_paths (g : DiGraph) (a b : node) :
  is_path_direct g [] = [] /\
  is_path_direct g [a] = [a] /\
  (In a (nodes g) -> In b (nodes g) ->
   is_path_direct g [a; b] = if has_edge g a b then [a; b] else []).
Proof.
  repeat split. intros _ _.
  unfold is_path_direct.
  assert (Hd : dir_change_scan g [a; b] (removelast [a; b]) 0 0 = 0).
  { cbn [removelast dir_change_scan]. now destruct (negb _). }
  rewrite Hd. cbn [skipn removelast forward_scan Nat.add nth].
  rewrite mem_destinations. now destruct (has_edge g a b).
Qed.

(** X9, witness: the first edge of the chain A -> B -> C. *)
Lemma is_path_direct_keeps_chain_edge :
  is_path_direct chain_graph ["A"; "B"] = ["A"; "B"].
Proof.
  apply (proj2 (proj2 (is_path_direct_on_short_paths chain_graph "A" "B"))).
  - vm_compute. tauto.
  - vm_compute. tauto.
Defined.

(** ** find_execution_path *)

Lemma In_removelast_skipn {A : Type} (x : A) (k : nat) :
  forall l, In x (removelast (skipn k l)) -> In x (removelast l).
Proof.
  induction k as [|k IH]; intros l H; [exact H|].
  destruct l as [|y l]; [exact H|].
  rewrite skipn_cons in H. apply IH in H.
  destruct l as [|z l]; [destruct H|].
  right. exact H.
Qed.

Lemma interior_skipn (x : node) (i : nat) (p : Path) :
  In x (interior (skipn i p)) -> In x (interior p).
Proof.
  unfold interior. change (tl (skipn i p)) with (skipn 1 (skipn i p)).
  rewrite skipn_skipn, Nat.add_comm, <- skipn_skipn.
  change (skipn 1 p) with (tl p). apply In_removelast_skipn.
Qed.

Lemma crosses_logged_skipn (p : Path) (logged : list node) (i : nat) :
  crosses_logged p logged = false ->
  crosses_logged (skipn i p) logged = false.
Proof.
  intros H. unfold crosses_logged in *.
  destruct (existsb _ (interior (skipn i p))) eqn:Hs; [|reflexivity].
  apply existsb_exists in Hs. destruct Hs as [x [Hx Hm]].
  apply interior_skipn in Hx.
  assert (Ht : existsb (fun n => mem n logged) (interior p) = true)
    by (apply existsb_exists; now exists x).
  congruence.
Qed.

Lemma nth_clean_path (paths : list Path) (logged : list node) (n : nat) :
  crosses_logged (nth n (clean_paths paths logged) []) logged = false.
Proof.
  destruct (nth_in_or_default n (clean_paths paths logged) []) as [Hin | ->];
    [|reflexivity].
  apply filter_In in Hin. destruct Hin as [_ H].
  now apply negb_true_iff in H.
Qed.

Lemma search_and_select_clean
    (search : DiGraph -> node -> node -> option (list Path))
    (Rng : Type) (randbelow : Rng -> nat -> nat * Rng)
    (fuel : nat) (g u : DiGraph) (n1 n2 : node) (logged : list node)
    (r r' : Rng) (found : Path) :
  search_and_select search Rng randbelow fuel g u n1 n2 logged r
  = Some (Returns (found, r')) ->
  crosses_logged found logged = false.
Proof.
  unfold search_and_select.
  destruct (truthy (cap10 (k_shortest_paths search g n1 n2 K))); simpl.
  - destruct (truthy (clean_paths _ logged)); simpl.
    + unfold random_choice. destruct (randbelow r _) as [i r1].
      intros H. inversion H; subst. apply nth_clean_path.
    + intros H. now inversion H.
  - destruct (append_direct_suffixes fuel g _ 0) as [pool|]; [|discriminate].
    destruct (truthy (clean_paths pool logged)); simpl.
    + unfold random_choice. destruct (randbelow r _) as [i r1].
      unfold cut_executed_nodes.
      destruct (cut_scan search g _ _ 0) as [p|e] eqn:Hcut; simpl;
        [|discriminate].
      intros H. inversion H; subst.
      apply cut_scan_returns_suffix in Hcut. destruct Hcut as [j ->].
      apply crosses_logged_skipn, nth_clean_path.
    + intros H. now inversion H.
Qed.

(** X10: whatever the library search and the random source do, a path
    returned by [find_execution_path] has no logged node strictly between
    its first and its last node. *)
Theorem find_execution_path_avoids_logged_nodes
    (search : DiGraph -> node -> node -> option (list Path))
    (Rng : Type) (randbelow : Rng -> nat -> nat * Rng)
    (fuel : nat) (g u : DiGraph) (n1 n2 last_dif : node)
    (logged : list node) (r r' : Rng) (found : Path) :
  find_execution_path search Rng randbelow fuel g u n1 n2 last_dif logged r
  = Some (Returns (found, r')) ->
  forall x, In x (interior found) -> ~ In x logged.
Proof.
  intros H x Hx Hlog.
  assert (Hc : crosses_logged found logged = false).
  { unfold find_execution_path in H.
    destruct (n1 =? n2)%string.
    - destruct (calls_itself g n1 n2).
      + inversion H. reflexivity.
      + now apply search_and_select_clean in H.
    - now apply search_and_select_clean in H. }
  unfold crosses_logged in Hc.
  assert (Ht : existsb (fun n => mem n logged) (interior found) = true).
  { apply existsb_exists. exists x. split; [exact Hx | now apply mem_In]. }
  congruence.
Qed.

(** X10, witness: from A to E in the demonstration graph, with B logged,
    the path through C is the one returned; C is not logged. *)
Lemma demo_segment_avoids_logged_nodes : ~ In "C" ["E"; "B"].
Proof.
  refine (find_execution_path_avoids_logged_nodes nx_shortest_simple_paths
            draws next_draw 0 demo_graph (to_undirected demo_graph)
            "A" "E" "A" ["E"; "B"] [1] [] ["A"; "C"; "E"] _ "C" _).
  - vm_compute. reflexivity.
  - simpl. now left.
Defined.

Lemma search_and_select_ignores_undirected_graph
    (search : DiGraph -> node -> node -> option (list Path))
    (Rng : Type) (randbelow : Rng -> nat -> nat * Rng)
    (Hsearch : forall G s t, search G s t <> Some [])
    (fuel1 fuel2 : nat) (g u1 u2 : DiGraph) (n1 n2 : node)
    (logged : list node) (r : Rng) :
  search_and_select search Rng randbelow fuel1 g u1 n1 n2 logged r
  = search_and_select search Rng randbelow fuel2 g u2 n1 n2 logged r.
Proof.
  unfold search_and_select.
  now rewrite (k_shortest_paths_truthy search Hsearch).
Qed.

(** X11: with a library search that delivers a path whenever it does not
    raise, the result of [find_execution_path] does not depend on the
    undirected graph [u] it is given: the search of Case 2 over [u] is never
    made. *)
Theorem find_execution_path_ignores_undirected_graph
    (search : DiGraph -> node -> node -> option (list Path))
    (Rng : Type) (randbelow : Rng -> nat -> nat * Rng)
    (fuel1 fuel2 : nat) (g u1 u2 : DiGraph) (n1 n2 last_dif : node)
    (logged : list node) (r : Rng) :
  (forall G s t, search G s t <> Some []) ->
  find_execution_path search Rng randbelow fuel1 g u1 n1 n2 last_dif logged r
  = find_execution_path search Rng randbelow fuel2 g u2 n1 n2 last_dif logged r.
Proof.
  intros Hsearch. unfold find_execution_path.
  destruct (n1 =? n2)%string; [destruct (calls_itself g n1 n2)|];
    try reflexivity;
    now apply search_and_select_ignores_undirected_graph.
Qed.

(** X11, witness: from E to B in the demonstration graph, with the
    undirected projection and with a graph without any edge. *)
Lemma find_execution_path_ignores_undirected_demo_graph :
  find_execution_path nx_shortest_simple_paths draws next_draw 0 demo_graph
    (to_undirected demo_graph) "E" "B" "C" demo_logs [2]
  = find_execution_path nx_shortest_simple_paths draws next_draw 5 demo_graph
      (mkDiGraph [] []) "E" "B" "C" demo_logs [2].
Proof.
  apply (find_execution_path_ignores_undirected_graph nx_shortest_simple_paths
           draws next_draw).
  exact nx_delivers_or_raises.
Defined.

(** X12: when the library search raises for the pair (n1, n2) of two
    different nodes, [find_execution_path] returns the empty path after one
    draw on a one-element list, and [reconstruct_path] on the single log
    event [n2] from the source [n1] returns that event alone. *)
Theorem failed_search_falls_back_to_the_event
    (search : DiGraph -> node -> node -> option (list Path))
    (Rng : Type) (randbelow : Rng -> nat -> nat * Rng)
    (fuel : nat) (g u : DiGraph) (n1 n2 last_dif : node)
    (logged : list node) (r : Rng) :
  n1 <> n2 ->
  search g n1 n2 = None ->
  find_execution_path search Rng randbelow fuel g u n1 n2 last_dif logged r
  = Some (Returns ([], snd (randbelow r 1))) /\
  reconstruct_path search Rng randbelow fuel g [n2] n1 r
  = Some (Returns ([n2], snd (randbelow r 1))).
Proof.
  intros Hne Hnone.
  assert (Hs : forall u' logged',
             search_and_select search Rng randbelow fuel g u' n1 n2 logged' r
             = Some (Returns ([], snd (randbelow r 1)))).
  { intros u' logged'. unfold search_and_select, k_shortest_paths.
    rewrite Hnone. cbn. unfold random_choice. cbn.
    destruct (randbelow r 1) as [i r1]. cbn.
    now destruct (i mod 1). }
  assert (Hf : forall u' last' logged',
             find_execution_path search Rng randbelow fuel g u' n1 n2 last'
               logged' r
             = Some (Returns ([], snd (randbelow r 1)))).
  { intros u' last' logged'. unfold find_execution_path.
    apply String.eqb_neq in Hne. rewrite Hne. apply Hs. }
  split; [apply Hf|].
  unfold reconstruct_path. cbn [reconstruct_loop last].
  rewrite Hf. reflexivity.
Qed.

(** X12, witness: scenario D, from B to C in the graph A -> B, A -> C. *)
Lemma fallback_from_B_to_C :
  find_execution_path nx_shortest_simple_paths draws next_draw 0 fork_graph
    (to_undirected fork_graph) "B" "C" "A" ["C"] [3; 4]
  = Some (Returns ([], snd (next_draw [3; 4] 1))) /\
  reconstruct_path nx_shortest_simple_paths draws next_draw 0 fork_graph
    ["C"] "B" [3; 4]
  = Some (Returns (["C"], snd (next_draw [3; 4] 1))).
Proof.
  apply (failed_search_falls_back_to_the_event nx_shortest_simple_paths draws
           next_draw 0 fork_graph (to_undirected fork_graph) "B" "C" "A"
           ["C"] [3; 4]).
  - discriminate.
  - reflexivity.
Defined.

(** ** reconstruct_path *)

Lemma reconstruct_loop_ends_with_last_event
    (search : DiGraph -> node -> node -> option (list Path))
    (Rng : Type) (randbelow : Rng -> nat -> nat * Rng)
    (Hsearch : forall G s t ps p, search G s t = Some ps -> In p ps ->
                 exists q, p = q ++ [t])
    (fuel : nat) (g u : DiGraph) (logged : list node) (e : node)
    (logs : list node) :
  forall (reconstruction out : list node) (r r' : Rng),
    reconstruct_loop search Rng randbelow fuel g u logged (logs ++ [e])
      reconstruction r
    = Some (Returns (out, r')) ->
    exists q, out = reconstruction ++ q ++ [e].
Proof.
  induction logs as [|n logs IH]; intros reconstruction out r r' H;
    cbn [app reconstruct_loop] in H;
    (destruct reconstruction as [|x rest]; [discriminate|]).
  - destruct (find_execution_path search Rng randbelow fuel g u
                (last (x :: rest) "") e (find_last_dif (x :: rest) e) logged r)
      as [[[found r1]|err]|] eqn:Hfound; try discriminate.
    apply (find_execution_path_candidate search Rng randbelow Hsearch) in Hfound.
    destruct (appended_segment_ends_with_event e found Hfound) as [q Hq].
    rewrite Hq in H. inversion H; subst. now exists q.
  - destruct (find_execution_path search Rng randbelow fuel g u
                (last (x :: rest) "") n (find_last_dif (x :: rest) n) logged r)
      as [[[found r1]|err]|] eqn:Hfound; try discriminate.
    remember (if truthy (tl found) then tl found else [n]) as segment.
    apply IH in H. destruct H as [q ->].
    exists (segment ++ q). now rewrite <- !app_assoc.
Qed.

(** X13: with a library search whose paths end at the requested target,
    every completed reconstruction of a non-empty log sequence ends with the
    last log event. *)
Theorem reconstruction_ends_with_last_event
    (search : DiGraph -> node -> node -> option (list Path))
    (Rng : Type) (randbelow : Rng -> nat -> nat * Rng)
    (fuel : nat) (g : DiGraph) (logs : list node) (e source : node)
    (r r' : Rng) (out : list node) :
  (forall G s t ps p, search G s t = Some ps -> In p ps ->
     exists q, p = q ++ [t]) ->
  reconstruct_path search Rng randbelow fuel g (logs ++ [e]) source r
  = Some (Returns (out, r')) ->
  exists q, out = q ++ [e].
Proof.
  intros Hsearch H. unfold reconstruct_path in H.
  destruct (reconstruct_loop search Rng randbelow fuel g (to_undirected g)
              (logs ++ [e]) (logs ++ [e]) [source] r)
    as [[[rec r1]|err]|] eqn:Hloop; try discriminate.
  inversion H; subst.
  apply (reconstruct_loop_ends_with_last_event search Rng randbelow Hsearch)
    in Hloop.
  destruct Hloop as [q ->]. now exists q.
Qed.

(** X13, witness: scenario A, whose reconstruction (B, C, D) ends with the
    log event D. *)
Lemma scenario_A_ends_with_D : exists q, ["B"; "C"; "D"] = q ++ ["D"].
Proof.
  apply (reconstruction_ends_with_last_event nx_shortest_simple_paths draws
           next_draw 0 (DiGraph_of [("A","B"); ("B","C"); ("C","D")])
           [] "D" "A" [] []).
  - exact nx_reaches_target.
  - reflexivity.
Defined.

(** ** Nodes and edges of a graph under construction *)

Lemma nodes_add_node (h : DiGraph) (n x : node) :
  In x (nodes (add_node h n)) <-> In x (nodes h) \/ x = n.
Proof.
  unfold add_node. destruct (mem n (nodes h)) eqn:Hm; simpl.
  - apply mem_In in Hm. split; [tauto|]. intros [H | ->]; assumption.
  - rewrite in_app_iff. simpl. intuition (subst; auto).
Qed.

Lemma edges_add_node (h : DiGraph) (n : node) : edges (add_node h n) = edges h.
Proof. unfold add_node. now destruct (mem n (nodes h)). Qed.

Lemma edge_eqb_eq (e1 e2 : edge) : edge_eqb e1 e2 = true <-> e1 = e2.
Proof.
  destruct e1 as [a b], e2 as [c d]. unfold edge_eqb. simpl.
  rewrite andb_true_iff, !String.eqb_eq. split.
  - intros [-> ->]. reflexivity.
  - intros H. inversion H. now split.
Qed.

Lemma has_edge_In (h : DiGraph) (a b : node) :
  has_edge h a b = true <-> In (a, b) (edges h).
Proof.
  unfold has_edge. rewrite existsb_exists. split.
  - intros [e [He Heq]]. apply edge_eqb_eq in Heq. now subst.
  - intros H. exists (a, b). split; [exact H | now apply edge_eqb_eq].
Qed.

Lemma nodes_add_edge (h : DiGraph) (a b x : node) :
  In x (nodes (add_edge h a b)) <-> In x (nodes h) \/ x = a \/ x = b.
Proof.
  unfold add_edge.
  destruct (has_edge (add_node (add_node h a) b) a b); simpl;
    rewrite !nodes_add_node; tauto.
Qed.

Lemma edges_add_edge (h : DiGraph) (a b : node) (e : edge) :
  In e (edges (add_edge h a b)) <-> In e (edges h) \/ e = (a, b).
Proof.
  unfold add_edge.
  destruct (has_edge (add_node (add_node h a) b) a b) eqn:He; simpl.
  - apply has_edge_In in He. rewrite !edges_add_node in *.
    split; [tauto|]. intros [H | ->]; assumption.
  - rewrite in_app_iff, !edges_add_node. simpl. intuition (subst; auto).
Qed.

(** ** group_collapsed_nodes *)

Lemma wrapped_name_is_not_new (n : string) :
  newly_collapsed ("(" ++ n ++ ")")%string = false.
Proof.
  unfold newly_collapsed. cbn [append first_char char_differs].
  rewrite Ascii.eqb_refl. cbn [negb]. now rewrite andb_false_r.
Qed.

Lemma fold_add_node_mentions (f : node -> node) (l : list node) :
  forall h x,
    mentions (fold_left (fun h n => add_node h (f n)) l h) x ->
    mentions h x \/ In x (map f l).
Proof.
  induction l as [|n l IH]; intros h x H; simpl in *; [now left|].
  apply IH in H. destruct H as [H|H]; [|right; now right].
  destruct H as [H|[y H]].
  - apply nodes_add_node in H. destruct H as [H | ->].
    + left. now left.
    + right. now left.
  - rewrite edges_add_node in H. left. right. now exists y.
Qed.

Lemma fold_add_edge_mentions (f : node -> node) (es : list edge) :
  forall h x,
    mentions (fold_left (fun h e => add_edge h (f (fst e)) (f (snd e))) es h) x ->
    mentions h x \/ exists e, In e es /\ (x = f (fst e) \/ x = f (snd e)).
Proof.
  induction es as [|e es IH]; intros h x H; simpl in *; [now left|].
  apply IH in H. destruct H as [H|[e' [He' Hx]]].
  - destruct H as [H|[y [H|H]]].
    + apply nodes_add_edge in H. destruct H as [H|[-> | ->]].
      * left. now left.
      * right. exists e. split; [now left | now left].
      * right. exists e. split; [now left | now right].
    + apply edges_add_edge in H. destruct H as [H|H].
      * left. right. exists y. now left.
      * inversion H; subst. right. exists e. split; [now left | now left].
    + apply edges_add_edge in H. destruct H as [H|H].
      * left. right. exists y. now right.
      * inversion H; subst. right. exists e. split; [now left | now right].
  - right. exists e'. split; [now right | exact Hx].
Qed.

Lemma relabel_nodes_mentions (g : DiGraph) (old new x : node) :
  mentions (relabel_nodes g old new) x ->
  exists m, mentions g m /\ x = if (m =? old)%string then new else m.
Proof.
  unfold relabel_nodes. intros H.
  set (f := fun n : node => if (n =? old)%string then new else n) in *.
  apply (fold_add_edge_mentions f) in H. destruct H as [H|[e [He Hx]]].
  - apply (fold_add_node_mentions f) in H. destruct H as [H|H].
    + destruct H as [[]|[y [[]|[]]]].
    + apply in_map_iff in H. destruct H as [m [Hm Hin]].
      exists m. split; [now left | now symmetry].
  - destruct e as [a b]. simpl in Hx. destruct Hx as [-> | ->].
    + exists a. split; [|reflexivity]. right. exists b. now left.
    + exists b. split; [|reflexivity]. right. exists a. now right.
Qed.

Lemma group_fold_leaves_no_new_name (todo : list node) :
  forall h,
    (forall x, mentions h x -> newly_collapsed x = false \/ In x todo) ->
    forall x, mentions (fold_left group_step todo h) x ->
              newly_collapsed x = false.
Proof.
  induction todo as [|n todo IH]; intros h Hinv x Hx; simpl in Hx.
  - destruct (Hinv x Hx) as [H|[]]. exact H.
  - apply (IH (group_step h n)); [|exact Hx].
    intros y Hy. unfold group_step in Hy.
    destruct (newly_collapsed n) eqn:Hn.
    + apply relabel_nodes_mentions in Hy. destruct Hy as [m [Hm ->]].
      destruct (String.eqb_spec m n) as [->|Hne].
      * left. apply wrapped_name_is_not_new.
      * destruct (Hinv m Hm) as [H|[H|H]]; [now left | congruence | now right].
    + destruct (Hinv y Hy) as [H|[H|H]]; [now left | subst; now left | now right].
Qed.

Lemma group_fold_without_new_name (l : list node) :
  forall h,
    Forall (fun n => newly_collapsed n = false) l ->
    fold_left group_step l h = h.
Proof.
  induction l as [|n l IH]; intros h H; simpl; [reflexivity|].
  inversion H as [|n' l' Hn Hl]; subst.
  unfold group_step at 2. rewrite Hn. now apply IH.
Qed.

(** X14: on a graph whose edges join nodes of the graph,
    [group_collapsed_nodes] leaves no node that its own test would still
    take for newly collapsed, and applying it a second time changes
    nothing. *)
Theorem group_collapsed_nodes_is_idempotent (g : DiGraph) :
  (forall a b, In (a, b) (edges g) -> In a (nodes g) /\ In b (nodes g)) ->
  Forall (fun n => newly_collapsed n = false) (nodes (group_collapsed_nodes g)) /\
  group_collapsed_nodes (group_collapsed_nodes g) = group_collapsed_nodes g.
Proof.
  intros Hclosed.
  assert (Hall : Forall (fun n => newly_collapsed n = false)
                   (nodes (group_collapsed_nodes g))).
  { apply Forall_forall. intros x Hx.
    apply (group_fold_leaves_no_new_name (nodes g) g).
    - intros y [Hy|[z [Hy|Hy]]]; right; [exact Hy | |];
        apply Hclosed in Hy; tauto.
    - left. exact Hx. }
  split; [exact Hall|].
  unfold group_collapsed_nodes at 1.
  now apply group_fold_without_new_name.
Qed.

(** X14, witness: a chain through the collapsed nodes B,C and D|E. *)
Lemma group_collapsed_nodes_on_collapsed_chain :
  Forall (fun n => newly_collapsed n = false)
    (nodes (group_collapsed_nodes
              (DiGraph_of [("A","B,C"); ("B,C","D|E"); ("D|E","(F,G)")]))) /\
  group_collapsed_nodes
    (group_collapsed_nodes
       (DiGraph_of [("A","B,C"); ("B,C","D|E"); ("D|E","(F,G)")]))
  = group_collapsed_nodes
      (DiGraph_of [("A","B,C"); ("B,C","D|E"); ("D|E","(F,G)")]).
Proof.
  apply (group_collapsed_nodes_is_idempotent
           (DiGraph_of [("A","B,C"); ("B,C","D|E"); ("D|E","(F,G)")])).
  intros a b H. vm_compute in H.
  repeat (destruct H as [H|H]; [inversion H; subst; vm_compute; tauto|]).
  destruct H.
Defined.

(** ** make_directed_graph *)

Lemma append_empty_r (s : string) : (s ++ "")%string = s.
Proof. induction s as [|c s IH]; simpl; [reflexivity | now rewrite IH]. Qed.

Lemma append_one_char (s t : string) (c : ascii) :
  ((s ++ String c "") ++ t)%string = (s ++ String c t)%string.
Proof. induction s as [|d s IH]; simpl; [reflexivity | now rewrite IH]. Qed.

Lemma split_arrow_step (c d : ascii) (s current : string) :
  split_arrow current (String c (String d s))
  = if (c =? "-")%char && (d =? ">")%char
    then current :: split_arrow "" s
    else split_arrow (current ++ String c "")%string (String d s).
Proof. reflexivity. Qed.

Lemma split_arrow_length (s : string) :
  forall current, 1 <= length (split_arrow current s).
Proof.
  assert (H : forall n s current, String.length s <= n ->
                1 <= length (split_arrow current s)).
  { clear s. induction n as [|n IH]; intros s current Hn.
    - destruct s; [simpl; lia | simpl in Hn; lia].
    - destruct s as [|c [|d s'']]; [simpl; lia | simpl; lia |].
      rewrite split_arrow_step.
      destruct ((c =? "-")%char && (d =? ">")%char); [simpl; lia|].
      apply IH. simpl in *. lia. }
  intros current. now apply (H (String.length s)).
Qed.

Lemma arrow_at_head (c d : ascii) (s pre post : string) :
  String c (String d s) = (pre ++ "->" ++ post)%string ->
  (c = "-"%char /\ d = ">"%char) \/
  exists pre', pre = String c pre' /\ String d s = (pre' ++ "->" ++ post)%string.
Proof.
  destruct pre as [|c' pre']; simpl; intros H; inversion H; subst.
  - now left.
  - right. now exists pre'.
Qed.

Lemma short_text_has_no_arrow (s : string) :
  String.length s <= 1 -> ~ has_arrow s.
Proof.
  intros Hlen [pre [post H]]. subst s.
  destruct pre as [|c [|d pre']]; simpl in Hlen; lia.
Qed.

(** A text with a separator comes back as two pieces or more, a text
    without separator as a single piece. *)
Lemma split_arrow_outcome (s : string) :
  forall current,
    (has_arrow s /\ 2 <= length (split_arrow current s)) \/
    (~ has_arrow s /\ split_arrow current s = [(current ++ s)%string]).
Proof.
  assert (H : forall n s current, String.length s <= n ->
                (has_arrow s /\ 2 <= length (split_arrow current s)) \/
                (~ has_arrow s /\
                 split_arrow current s = [(current ++ s)%string])).
  { clear s. induction n as [|n IH]; intros s current Hn.
    - right. split; [apply short_text_has_no_arrow; lia|].
      destruct s; [simpl; now rewrite append_empty_r | simpl in Hn; lia].
    - destruct s as [|c [|d s'']].
      + right. split; [apply short_text_has_no_arrow; simpl; lia|].
        simpl. now rewrite append_empty_r.
      + right. split; [apply short_text_has_no_arrow; simpl; lia|].
        reflexivity.
      + rewrite split_arrow_step.
        destruct ((c =? "-")%char && (d =? ">")%char) eqn:Hcd.
        * left. apply andb_true_iff in Hcd. destruct Hcd as [Hc Hd].
          apply Ascii.eqb_eq in Hc, Hd. subst. split.
          -- now exists ""%string, s''.
          -- pose proof (split_arrow_length s'' ""%string). simpl. lia.
        * destruct (IH (String d s'') (current ++ String c "")%string)
            as [[[pre [post Hs]] Hlen]|[Hno Hsplit]]; [simpl in *; lia | |].
          -- left. split; [|exact Hlen].
             exists (String c pre), post. simpl. now rewrite Hs.
          -- right. split.
             ++ intros [pre [post Hs]]. apply arrow_at_head in Hs.
                destruct Hs as [[-> ->]|[pre' [_ Hs]]]; [discriminate Hcd|].
                apply Hno. now exists pre', post.
             ++ now rewrite Hsplit, append_one_char. }
  intros current. now apply (H (String.length s)).
Qed.

Section EdgeFileFacts.

Variable rstrip : string -> string.
Variable strip : string -> string.

Lemma add_edge_of_line_outcome (g : DiGraph) (edge : string) :
  (has_arrow edge /\
   exists a b rest, stripped_edges strip edge = a :: b :: rest /\
                    add_edge_of_line strip g edge = Returns (add_edge g a b)) \/
  (~ has_arrow edge /\ add_edge_of_line strip g edge = Raises IndexError).
Proof.
  unfold add_edge_of_line, stripped_edges.
  destruct (split_arrow_outcome edge ""%string) as [[Ha Hlen]|[Hno Hs]].
  - left. split; [exact Ha|].
    destruct (split_arrow "" edge) as [|p [|q rest]]; simpl in Hlen; try lia.
    exists (strip p), (strip q), (map strip rest). now split.
  - right. split; [exact Hno|]. now rewrite Hs.
Qed.

Lemma add_edges_of_lines_outcome (texts : list string) :
  forall g,
    (Forall has_arrow texts /\
     exists g', add_edges_of_lines strip g texts = Returns g') \/
    (Exists (fun e => ~ has_arrow e) texts /\
     add_edges_of_lines strip g texts = Raises IndexError).
Proof.
  induction texts as [|edge texts IH]; intros g.
  - left. split; [constructor | now exists g].
  - cbn [add_edges_of_lines].
    destruct (add_edge_of_line_outcome g edge)
      as [[Ha [a [b [rest [_ ->]]]]]|[Hno ->]]; cbn [bind].
    + destruct (IH (add_edge g a b)) as [[Hall Hg]|[Hex Hg]].
      * left. split; [now constructor | exact Hg].
      * right. split; [now apply Exists_cons_tl | exact Hg].
    + right. split; [now apply Exists_cons_hd | reflexivity].
Qed.

Lemma add_edges_of_lines_content (texts : list string) :
  forall g g',
    add_edges_of_lines strip g texts = Returns g' ->
    (forall a b,
       In (a, b) (edges g') <->
       In (a, b) (edges g) \/
       exists edge rest, In edge texts /\
                         stripped_edges strip edge = a :: b :: rest) /\
    (forall n,
       In n (nodes g') <->
       In n (nodes g) \/
       exists edge a b rest, In edge texts /\
                             stripped_edges strip edge = a :: b :: rest /\
                             (n = a \/ n = b)) /\
    (NoDup (nodes g) -> NoDup (nodes g')).
Proof.
  induction texts as [|edge texts IH]; intros g g' H; cbn [add_edges_of_lines] in H.
  - inversion H; subst. repeat split; try tauto.
    + intros [Hin|[e [rest [[] _]]]]. exact Hin.
    + intros [Hin|[e [a [b [rest [[] _]]]]]]. exact Hin.
  - unfold add_edge_of_line in H.
    destruct (stripped_edges strip edge) as [|a0 [|b0 rest0]] eqn:Hs;
      try discriminate H.
    cbn [bind] in H. apply IH in H. destruct H as [He [Hn Hnd]].
    split; [|split].
    + intros a b. rewrite He, edges_add_edge. split.
      * intros [[Hin|Heq]|[e [rest [Hin Hst]]]].
        -- now left.
        -- inversion Heq; subst. right. exists edge, rest0. split; [now left | exact Hs].
        -- right. exists e, rest. split; [now right | exact Hst].
      * intros [Hin|[e [rest [[<-|Hin] Hst]]]].
        -- left. now left.
        -- rewrite Hs in Hst. inversion Hst; subst. left. now right.
        -- right. now exists e, rest.
    + intros n. rewrite Hn, nodes_add_edge. split.
      * intros [[Hin|Heq]|[e [a [b [rest [Hin Hst]]]]]].
        -- now left.
        -- right. exists edge, a0, b0, rest0. split; [now left | now split].
        -- right. exists e, a, b, rest. split; [now right | exact Hst].
      * intros [Hin|[e [a [b [rest [[<-|Hin] [Hst Hab]]]]]]].
        -- left. now left.
        -- rewrite Hs in Hst. inversion Hst; subst. left. now right.
        -- right. now exists e, a, b, rest.
    + intros Hg. apply Hnd. now apply add_edge_NoDup.
Qed.

(** X15: [make_directed_graph] returns a graph when every line, once its
    trailing white space is removed, contains the separator, and lets an
    [IndexError] escape as soon as one line does not, for instance an empty
    line. *)
Theorem make_directed_graph_outcome (lines : list string) :
  (Forall (fun line => has_arrow (rstrip line)) lines /\
   exists g, make_directed_graph rstrip strip lines = Returns g) \/
  (Exists (fun line => ~ has_arrow (rstrip line)) lines /\
   make_directed_graph rstrip strip lines = Raises IndexError).
Proof.
  unfold make_directed_graph.
  destruct (add_edges_of_lines_outcome (map rstrip lines) (mkDiGraph [] []))
    as [[Hall Hg]|[Hex Hg]].
  - left. split; [exact (proj1 (Forall_map _ _ _) Hall) | exact Hg].
  - right. split; [exact (proj1 (Exists_map _ _ _) Hex) | exact Hg].
Qed.

(** X16: the graph that [make_directed_graph] returns has exactly the edges
    named by the first two names of the lines, its nodes are the ends of
    its edges, and no node is listed twice. *)
Theorem make_directed_graph_content (lines : list string) (g : DiGraph) :
  make_directed_graph rstrip strip lines = Returns g ->
  (forall a b,
     In (a, b) (edges g) <->
     exists line rest, In line lines /\
                       stripped_edges strip (rstrip line) = a :: b :: rest) /\
  (forall n,
     In n (nodes g) <->
     exists m, In (n, m) (edges g) \/ In (m, n) (edges g)) /\
  NoDup (nodes g).
Proof.
  unfold make_directed_graph. intros H.
  apply add_edges_of_lines_content in H. destruct H as [He [Hn Hnd]].
  assert (Hedges : forall a b,
             In (a, b) (edges g) <->
             exists line rest, In line lines /\
               stripped_edges strip (rstrip line) = a :: b :: rest).
  { intros a b. rewrite He. simpl. split.
    - intros [[]|[e [rest [Hin Hst]]]].
      apply in_map_iff in Hin. destruct Hin as [line [<- Hin]].
      now exists line, rest.
    - intros [line [rest [Hin Hst]]]. right.
      exists (rstrip line), rest. split; [now apply in_map | exact Hst]. }
  split; [exact Hedges | split; [|apply Hnd; constructor]].
  intros n. rewrite Hn. simpl. split.
  - intros [[]|[e [a [b [rest [Hin [Hst Hab]]]]]]].
    assert (Hab' : In (a, b) (edges g)).
    { apply He. right. now exists e, rest. }
    destruct Hab as [-> | ->]; [exists b; now left | exists a; now right].
  - intros [m [Hin|Hin]]; apply He in Hin;
      destruct Hin as [[]|[e [rest [Hin Hst]]]]; right.
    + exists e, n, m, rest. repeat split; auto.
    + exists e, m, n, rest. repeat split; auto.
Qed.

End EdgeFileFacts.

(** X16, witness: three lines of an edge file read with the reference
    model of the string methods. *)
Lemma demo_lines_content :
  (forall a b,
     In (a, b) [("A", "B"); ("B", "G"); ("G", "E")] <->
     exists line rest, In line demo_lines /\
       stripped_edges ascii_strip (ascii_rstrip line) = a :: b :: rest) /\
  (forall n,
     In n ["A"; "B"; "G"; "E"] <->
     exists m, In (n, m) [("A", "B"); ("B", "G"); ("G", "E")] \/
               In (m, n) [("A", "B"); ("B", "G"); ("G", "E")]) /\
  NoDup ["A"; "B"; "G"; "E"].
Proof.
  apply (make_directed_graph_content ascii_rstrip ascii_strip demo_lines
           (mkDiGraph ["A"; "B"; "G"; "E"]
                      [("A", "B"); ("B", "G"); ("G", "E")])).
  vm_compute. reflexivity.
Defined.

(** ** Recall of an aligned reconstruction *)

(** X17: the recall computed on the alignment of a reconstruction, as the
    demonstration does, is returned and lies in [0, 1] for every non-empty
    reference, whatever the names of its nodes; for the empty reference the
    [ZeroDivisionError] escapes. *)
Theorem recall_of_alignment (real reconstructed : list node) :
  (real <> [] ->
   exists q,
     evaluate_recall real (match_reconstruction real reconstructed) = Returns q /\
     (0 <= q <= 1)%Q) /\
  evaluate_recall [] (match_reconstruction [] reconstructed)
  = Raises ZeroDivisionError.
Proof.
  split; [|reflexivity].
  intros Hne. unfold evaluate_recall.
  rewrite get_true_positive_matched. cbn [bind].
  pose proof (agree_le_length real (match_reconstruction real reconstructed)) as Hle.
  unfold match_reconstruction in *. rewrite match_from_length.
  destruct real as [|r real']; [congruence|].
  cbn [length py_div]. eexists. split; [reflexivity|].
  apply ratio_in_unit_interval. simpl in Hle. exact Hle.
Qed.

(** X17, witness: scenario B. *)
Lemma recall_of_scenario_B :
  exists q,
    evaluate_recall ["A";"B";"C"] (match_reconstruction ["A";"B";"C"] ["A";"C"])
    = Returns q /\ (0 <= q <= 1)%Q.
Proof.
  apply (recall_of_alignment ["A";"B";"C"] ["A";"C"]). discriminate.
Defined.

(** ** What can escape from reconstruct_path *)

Lemma search_and_select_raises_only_exit
    (search : DiGraph -> node -> node -> option (list Path))
    (Rng : Type) (randbelow : Rng -> nat -> nat * Rng)
    (fuel : nat) (g u : DiGraph) (n1 n2 : node) (logged : list node)
    (r : Rng) (e : exn) :
  search_and_select search Rng randbelow fuel g u n1 n2 logged r
  = Some (Raises e) ->
  exists printed, e = SystemExit printed.
Proof.
  unfold search_and_select.
  destruct (truthy (cap10 (k_shortest_paths search g n1 n2 K))); simpl.
  - destruct (truthy (clean_paths _ logged)); simpl; [|discriminate].
    unfold random_choice. destruct (randbelow r _) as [i r1]. discriminate.
  - destruct (append_direct_suffixes fuel g _ 0) as [pool|]; [|discriminate].
    destruct (truthy (clean_paths pool logged)); simpl; [|discriminate].
    unfold random_choice. destruct (randbelow r _) as [i r1].
    unfold cut_executed_nodes.
    destruct (cut_scan_outcome search g
                (nth (i mod length (clean_paths pool logged))
                   (clean_paths pool logged) [])
                (nth (i mod length (clean_paths pool logged))
                   (clean_paths pool logged) []) 0 eq_refl)
      as [Hcut|[j [_ Hcut]]]; rewrite Hcut; simpl.
    + intros H. inversion H. now eexists.
    + discriminate.
Qed.

Lemma reconstruct_loop_raises_only_exit
    (search : DiGraph -> node -> node -> option (list Path))
    (Rng : Type) (randbelow : Rng -> nat -> nat * Rng)
    (fuel : nat) (g u : DiGraph) (logged logs : list node) :
  forall (reconstruction : list node) (r : Rng) (e : exn),
    reconstruction <> [] ->
    reconstruct_loop search Rng randbelow fuel g u logged logs reconstruction r
    = Some (Raises e) ->
    exists printed, e = SystemExit printed.
Proof.
  induction logs as [|n logs IH]; intros reconstruction r e Hne H;
    cbn [reconstruct_loop] in H; [discriminate|].
  destruct reconstruction as [|x rest]; [congruence|].
  destruct (find_execution_path search Rng randbelow fuel g u
              (last (x :: rest) "") n (find_last_dif (x :: rest) n) logged r)
    as [[[found r1]|err]|] eqn:Hfound; try discriminate.
  - apply IH in H; [exact H | simpl; discriminate].
  - inversion H; subst. unfold find_execution_path in Hfound.
    destruct (last (x :: rest) "" =? n)%string;
      [destruct (calls_itself g (last (x :: rest) "") n); [discriminate|]|];
      now apply search_and_select_raises_only_exit in Hfound.
Qed.

(** X18: whatever the library search and the random source do, the only
    exception that [reconstruct_path] lets escape is the [SystemExit] of
    [cut_executed_nodes]; reading the last node of the reconstruction never
    fails, because the reconstruction always holds the source. *)
Theorem reconstruct_path_raises_only_exit
    (search : DiGraph -> node -> node -> option (list Path))
    (Rng : Type) (randbelow : Rng -> nat -> nat * Rng)
    (fuel : nat) (g : DiGraph) (logs : list node) (source : node)
    (r : Rng) (e : exn) :
  reconstruct_path search Rng randbelow fuel g logs source r = Some (Raises e) ->
  exists printed, e = SystemExit printed.
Proof.
  unfold reconstruct_path. intros H.
  destruct (reconstruct_loop search Rng randbelow fuel g (to_undirected g)
              logs logs [source] r) as [[[rec r1]|err]|] eqn:Hloop;
    try discriminate.
  inversion H; subst.
  apply reconstruct_loop_raises_only_exit in Hloop; [exact Hloop | discriminate].
Qed.

(** X18, witness: a search that delivers nothing on the directed chain
    A -> B -> C and the pair (A, C) on its undirected projection sends the
    event C through Case 2, where [cut_executed_nodes] finds no ancestor. *)
Lemma exit_with_a_search_that_delivers_nothing :
  exists printed, SystemExit ["A"; "C"] = SystemExit printed.
Proof.
  apply (reconstruct_path_raises_only_exit
           (fun G s t => if length (edges G) <=? 2 then Some []
                         else Some [[s; t]])
           draws next_draw 3 chain_graph ["C"] "A" []
           (SystemExit ["A"; "C"])).
  vm_compute. reflexivity.
Defined.
